(** * Coordinate frame and vehicle placement of [flow.scenarios.base_scenario]

    A shallow embedding of the [Scenario] class of
    [flow/scenarios/base_scenario.py]: the edge table and its sentinel
    queries, the global coordinate frame ([get_edge], [get_x]), the set-up of
    the edge-start tables done by [__init__], the shared pre-processing
    [_get_start_pos_util], and the uniform and random placement strategies.

    Numbers: positions, lengths and gaps are Python floats; they are embedded
    as exact rationals [Q], so every equation below is the exact-arithmetic
    reading of the code (the source's "within floating tolerance").  Vehicle
    and lane counts are Python ints, embedded as [Z].  Dictionaries that are
    only looked up are [gmap]s; dictionaries whose iteration order matters
    are association lists in insertion order. *)

From Stdlib Require Import Ascii String QArith Qround Lqa Permutation.
From stdpp Require Import gmap strings list fin_maps sorting pretty.

Close Scope Q_scope.

(** ** Exceptions and results *)

(** The Python exceptions the modelled code can raise.  [ValueError] carries
    its message, which tells the capacity error of [_get_start_pos_util] from
    the one [max] raises on an empty sequence. *)
Inductive exn : Type :=
  | KeyError
  | IndexError
  | TypeError
  | ValueError (msg : string)
  | AssertionError
  | ZeroDivisionError
  | StopIteration
  | NotImplementedError.

(** A call returns, raises, or is cut off by the loop bound of the model. *)
Inductive result (A : Type) : Type :=
  | Ok (a : A)
  | Raise (e : exn)
  | Timeout.

Arguments Ok {A} a.
Arguments Raise {A} e.
Arguments Timeout {A}.

Definition rbind {A B} (r : result A) (k : A -> result B) : result B :=
  match r with
  | Ok a => k a
  | Raise e => Raise e
  | Timeout => Timeout
  end.

Notation "'let?' x := r 'in' k" := (rbind r (fun x => k))
  (at level 10, x pattern, r at level 100, k at level 200).

Definition raises {A} (r : result A) : Prop :=
  exists e, r = Raise e.

(** ** Numbers *)

Definition VEHICLE_LENGTH : Q := 5.

(** The "not found" value of the lookups. *)
Definition NOT_FOUND : Z := (-1001)%Z.

Definition Qof (z : Z) : Q := inject_Z z.

(** Python's [a % b] on numbers, exact: [a - floor(a / b) * b], whose sign
    is that of [b]; [b = 0] raises. *)
Definition py_mod (a b : Q) : result Q :=
  if Qeq_bool b 0 then Raise ZeroDivisionError
  else Ok (a - Qof (Qfloor (a / b)) * b)%Q.

(** Python's [int(q)]: truncation towards zero. *)
Definition py_int (q : Q) : Z := Z.quot (Qnum q) (Z.pos (Qden q)).

(** Python's [max(a, b)] and [min(a, b)]: the first argument wins ties. *)
Definition py_max (a b : Q) : Q := if Qlt_le_dec a b then b else a.
Definition py_min (a b : Q) : Q := if Qlt_le_dec b a then b else a.

(** [max] of a sequence; the empty sequence raises [ValueError]. *)
Definition MAX_EMPTY : string := "max() arg is an empty sequence".

Fixpoint py_max_list (l : list Z) : result Z :=
  match l with
  | [] => Raise (ValueError MAX_EMPTY)
  | [a] => Ok a
  | a :: r => let? m := py_max_list r in Ok (if (a <? m)%Z then m else a)
  end.

Fixpoint py_max_listQ (l : list Q) : result Q :=
  match l with
  | [] => Raise (ValueError MAX_EMPTY)
  | [a] => Ok a
  | a :: r => let? m := py_max_listQ r in Ok (py_max a m)
  end.

Definition sumQ (l : list Q) : Q := foldl Qplus 0%Q l.
Definition sumZ (l : list Z) : Z := foldl Z.add 0%Z l.

(** ** Strings *)

Definition is_colon (c : ascii) : bool := Ascii.eqb c ":"%char.
Definition is_underscore (c : ascii) : bool := Ascii.eqb c "_"%char.

(** [edge_id[0] != ":"]; indexing the empty string raises. *)
Definition first_is_colon (s : string) : result bool :=
  match s with
  | EmptyString => Raise IndexError
  | String c _ => Ok (is_colon c)
  end.

Fixpoint has_underscore (s : string) : bool :=
  match s with
  | EmptyString => false
  | String c r => is_underscore c || has_underscore r
  end.

(** [s.rsplit("_", 1)[0]]: what precedes the last underscore, the whole
    string when there is none. *)
Fixpoint rsplit_head (s : string) : string :=
  match s with
  | EmptyString => EmptyString
  | String c r =>
      if is_underscore c && negb (has_underscore r) then EmptyString
      else String c (rsplit_head r)
  end.

(** ** Dictionaries built from lists of pairs *)

(** [dict(l)]: a later pair overrides an earlier one with the same key. *)
Definition dict {V} (l : list (string * V)) : gmap string V :=
  foldl (fun m kv => <[kv.1 := kv.2]> m) ∅ l.

(** ** The network *)

(** One entry of [self._edges]. *)
Record edge_data : Type := EdgeData {
  d_length : Q;
  d_lanes : Z;
  d_speed : Q
}.

Definition conn_table : Type := gmap string (gmap Z (list (string * Z))).

(** The attributes of a constructed [Scenario] that the coordinate frame and
    the placement read.  [net_length] is [self.length]. *)
Record Scenario : Type := MkScenario {
  _edges : gmap string edge_data;
  _connections_next : conn_table;
  _connections_prev : conn_table;
  _edge_list : list string;
  max_speed : Q;
  edgestarts : list (string * Q);
  internal_edgestarts : list (string * Q);
  internal_edgestarts_dict : gmap string Q;
  total_edgestarts : list (string * Q);
  total_edgestarts_dict : gmap string Q;
  net_length : Q
}.

(** *** Edge queries *)

(** The three attribute lookups of [self._edges], with their [KeyError]
    handler. *)
Definition table_length (t : gmap string edge_data) (edge_id : string) : Q :=
  match t !! edge_id with
  | Some d => d_length d
  | None => Qof NOT_FOUND
  end.

Definition table_speed (t : gmap string edge_data) (edge_id : string) : Q :=
  match t !! edge_id with
  | Some d => d_speed d
  | None => Qof NOT_FOUND
  end.

Definition table_lanes (t : gmap string edge_data) (edge_id : string) : Z :=
  match t !! edge_id with
  | Some d => d_lanes d
  | None => NOT_FOUND
  end.

Definition edge_length (sc : Scenario) (edge_id : string) : Q :=
  table_length (_edges sc) edge_id.

Definition speed_limit (sc : Scenario) (edge_id : string) : Q :=
  table_speed (_edges sc) edge_id.

Definition num_lanes (sc : Scenario) (edge_id : string) : Z :=
  table_lanes (_edges sc) edge_id.

Definition get_edge_list (sc : Scenario) : list string := _edge_list sc.

Definition conn_lookup (t : conn_table) (edge : string) (lane : Z)
  : list (string * Z) :=
  match t !! edge with
  | Some by_lane =>
      match by_lane !! lane with
      | Some l => l
      | None => []
      end
  | None => []
  end.

Definition next_edge (sc : Scenario) (edge : string) (lane : Z) :=
  conn_lookup (_connections_next sc) edge lane.

Definition prev_edge (sc : Scenario) (edge : string) (lane : Z) :=
  conn_lookup (_connections_prev sc) edge lane.

(** *** The coordinate frame *)

(** [get_edge]: the last entry of [total_edgestarts] that starts at or before
    [x]; Python returns [None] when there is none. *)
Definition get_edge (sc : Scenario) (x : Q) : option (string * Q) :=
  match find (fun es => Qle_bool es.2 x) (rev (total_edgestarts sc)) with
  | Some (edge, start_pos) => Some (edge, (x - start_pos)%Q)
  | None => None
  end.

Definition get_x (sc : Scenario) (edge : string) (position : Q) : result Q :=
  match edge with
  | EmptyString => Ok (Qof NOT_FOUND)
  | String c _ =>
      if is_colon c then
        match internal_edgestarts_dict sc !! edge with
        | Some s => Ok (s + position)%Q
        | None =>
            let edge_name := rsplit_head edge in
            Ok (default (Qof NOT_FOUND) (total_edgestarts_dict sc !! edge_name))
        end
      else
        match total_edgestarts_dict sc !! edge with
        | Some s => Ok (s + position)%Q
        | None => Raise KeyError
        end
  end.

(** ** Construction of the tables ([__init__]) *)

(** What the subclass and [generate_net] hand to [__init__]: the items of the
    edge dictionary in insertion order, the two connection maps, the three
    lists of edge starts, the [no_internal_links] flag of [net_params], and
    the [length] attribute a subclass may have set beforehand. *)
Record NetSpec : Type := MkNetSpec {
  gen_edges : list (string * edge_data);
  gen_next : conn_table;
  gen_prev : conn_table;
  specify_edge_starts : list (string * Q);
  specify_internal_edge_starts : list (string * Q);
  specify_intersection_edge_starts : list (string * Q);
  no_internal_links : bool;
  subclass_length : option Q
}.

(** [[edge_id for edge_id in keys if edge_id[0] != ":"]]. *)
Fixpoint filter_edge_ids (keys : list string) : result (list string) :=
  match keys with
  | [] => Ok []
  | k :: r =>
      let? c := first_is_colon k in
      let? t := filter_edge_ids r in
      Ok (if c then t else k :: t)
  end.

(** [item[1] in seen]: membership in the set of positions already met. *)
Definition seen_mem (p : Q) (seen : list Q) : bool :=
  existsb (Qeq_bool p) seen.

(** The comprehension
    [[item for item in l if item[1] not in seen and not seen.add(item[1])]]:
    [item[1]] is the second component of the pair, its start position. *)
Fixpoint dedup_seen (seen : list Q) (l : list (string * Q))
  : list (string * Q) :=
  match l with
  | [] => []
  | item :: r =>
      if seen_mem item.2 seen then dedup_seen seen r
      else item :: dedup_seen (item.2 :: seen) r
  end.

(** Lines 137-141: [internal_edgestarts += intersection_edgestarts], then the
    de-duplication. *)
Definition merge_internal_edgestarts
    (internal intersection : list (string * Q)) : list (string * Q) :=
  dedup_seen [] (internal ++ intersection).

(** [l.sort(key=lambda tup: tup[1])]: a stable sort on the start position. *)
Fixpoint insert_by_pos (a : string * Q) (l : list (string * Q))
  : list (string * Q) :=
  match l with
  | [] => [a]
  | b :: r =>
      if Qle_bool a.2 b.2 then a :: b :: r else b :: insert_by_pos a r
  end.

Definition sort_by_pos (l : list (string * Q)) : list (string * Q) :=
  foldr insert_by_pos [] l.

(** [__init__], up to the tables.  With [no_internal_links] the list
    [total_edgestarts] is the very list [edgestarts], so sorting the former
    in place sorts the latter too. *)
Definition Scenario_init (n : NetSpec) : result Scenario :=
  let edges := dict (gen_edges n) in
  let? edge_list := filter_edge_ids (map fst (gen_edges n)) in
  let? top_speed := py_max_listQ (map (table_speed edges) edge_list) in
  let internal :=
    merge_internal_edgestarts (specify_internal_edge_starts n)
                              (specify_intersection_edge_starts n) in
  let total :=
    sort_by_pos (if no_internal_links n then specify_edge_starts n
                 else specify_edge_starts n ++ internal) in
  Ok {| _edges := edges;
        _connections_next := gen_next n;
        _connections_prev := gen_prev n;
        _edge_list := edge_list;
        max_speed := top_speed;
        edgestarts :=
          if no_internal_links n then total else specify_edge_starts n;
        internal_edgestarts := internal;
        internal_edgestarts_dict := dict internal;
        total_edgestarts := total;
        total_edgestarts_dict := dict total;
        net_length :=
          match subclass_length n with
          | Some l => l
          | None => sumQ (map (table_length edges) edge_list)
          end |}.

(** ** Placement configuration *)

(** A value of a dictionary-form [edges_distribution]: a vehicle count, or a
    list of (vehicle type, count) pairs. *)
Inductive dist_value : Type :=
  | CountInt (n : Z)
  | CountPairs (l : list (string * Z)).

(** [edges_distribution]: the token ["all"], a list of edges, or a
    dictionary (its items in insertion order). *)
Inductive edges_dist : Type :=
  | DistAll
  | DistList (l : list string)
  | DistDict (d : list (string * dist_value)).

Record InitialConfig : Type := MkInitialConfig {
  shuffle : bool;
  spacing : string;
  min_gap : Q;
  perturbation : Q;
  x0 : Q;
  bunching : Q;
  lanes_distribution : Z;
  edges_distribution : edges_dist
}.

Definition set_edges_distribution (c : InitialConfig) (d : edges_dist)
  : InitialConfig :=
  {| shuffle := shuffle c; spacing := spacing c; min_gap := min_gap c;
     perturbation := perturbation c; x0 := x0 c; bunching := bunching c;
     lanes_distribution := lanes_distribution c; edges_distribution := d |}.

(** The keyword arguments of a reset: at most the keys ["x0"] and
    ["bunching"] are read. *)
Definition kwargs : Type := gmap string Q.

(** ** [_get_start_pos_util] *)

Definition NO_SPACE : string :=
  "There is not enough space to place all vehicles in the network.".

Record util_out : Type := MkUtil {
  u_x0 : Q;
  u_min_gap : Q;
  u_bunching : Q;
  u_lanes_distribution : Z;
  u_available_length : Q;
  u_available_edges : list string
}.

(** What [for edge_id in initial_config.edges_distribution] ranges over, and
    the edge list for ["all"]. *)
Definition dist_edges (sc : Scenario) (d : edges_dist) : list string :=
  match d with
  | DistAll => get_edge_list sc
  | DistList l => l
  | DistDict items => map fst items
  end.

Definition resolve_bunching (c : InitialConfig) (kw : kwargs) : Q :=
  let b := bunching c in
  let b := if Qlt_le_dec b 0 then 0%Q else b in
  match kw !! "bunching"%string with
  | Some v => v
  | None => b
  end.

Definition resolve_x0 (c : InitialConfig) (kw : kwargs) : Q :=
  match kw !! "x0"%string with
  | Some v => v
  | None => x0 c
  end.

Definition clamp_lanes (c : InitialConfig) (max_lane : Z) : Z :=
  if (max_lane <? lanes_distribution c)%Z then max_lane
  else if (lanes_distribution c <? 1)%Z then 1%Z
  else lanes_distribution c.

(** [edge_length(edge) > min_gap + VEHICLE_LENGTH]. *)
Definition long_enough (sc : Scenario) (mg : Q) (edge : string) : bool :=
  negb (Qle_bool (edge_length sc edge) (mg + VEHICLE_LENGTH)).

Definition _get_start_pos_util (sc : Scenario) (c : InitialConfig)
    (num_vehicles : Z) (kw : kwargs) : result util_out :=
  let mg := py_max 0 (min_gap c) in
  let x := resolve_x0 c kw in
  let b := resolve_bunching c kw in
  let cand := dist_edges sc (edges_distribution c) in
  let? max_lane := py_max_list (map (num_lanes sc) cand) in
  let ld := clamp_lanes c max_lane in
  let distribution_length :=
    sumQ (map (fun e => edge_length sc e * Qof (Z.min (num_lanes sc e) ld))%Q
              (filter (fun e => long_enough sc mg e = true) cand)) in
  let available_edges := filter (fun e => long_enough sc mg e = true) cand in
  let available_length :=
    (distribution_length - Qof ld * b
     - Qof num_vehicles * (mg + VEHICLE_LENGTH))%Q in
  if Qlt_le_dec available_length 0
  then Raise (ValueError NO_SPACE)
  else Ok (MkUtil x mg b ld available_length available_edges).

(** ** The placement strategies *)

(** The objects the strategies mutate: the [initial_config] object (passed by
    reference and the same object as [self.initial_config]), the list
    [self.total_veh_types], and the number of draws taken so far from the two
    process-wide random sources. *)
Record heap : Type := MkHeap {
  h_config : InitialConfig;
  h_total_veh_types : list string;
  h_gauss : nat;
  h_unif : nat
}.

Definition with_config (h : heap) (c : InitialConfig) : heap :=
  MkHeap c (h_total_veh_types h) (h_gauss h) (h_unif h).

Definition extend_veh_types (h : heap) (ids : list string) : heap :=
  MkHeap (h_config h) (h_total_veh_types h ++ ids) (h_gauss h) (h_unif h).

Definition placements : Type := (list (string * Q) * list Z)%type.

(** [range(n)] *)
Definition py_range (n : Z) : list Z := map Z.of_nat (seq 0 (Z.to_nat n)).

(** [[pair[0] for _ in range(pair[1])]] over the pairs of one key. *)
Definition veh_ids_of (pairs : list (string * Z)) : list string :=
  flat_map (fun p => replicate (Z.to_nat p.2) p.1) pairs.

(** The vehicle count of one key in the expansion loops. *)
Definition key_count (v : dist_value) : Z :=
  match v with
  | CountInt n => n
  | CountPairs l => sumZ (map snd l)
  end.

Definition key_veh_ids (v : dist_value) : list string :=
  match v with
  | CountInt _ => []
  | CountPairs l => veh_ids_of l
  end.

Section Placement.

Variable sc : Scenario.

(** The values returned by the successive calls of [np.random.normal] and
    of [random.random]. *)
Variable gauss : nat -> Q.
Variable unif : nat -> Q.

Variable kw : kwargs.

(** [pos[0] in dict(self.internal_edgestarts).keys()] *)
Definition is_internal (edge : string) : bool :=
  bool_decide (edge ∈ map fst (internal_edgestarts sc)).

(** [next(i for i, edge in enumerate(edges) if edge == e)] *)
Fixpoint index_of (e : string) (edges : list string) : option nat :=
  match edges with
  | [] => None
  | a :: r => if String.eqb a e then Some O else S <$> index_of e r
  end.

(** Lines 410-425: leave an internal junction for the start of the next
    entry of [total_edgestarts]. *)
Fixpoint skip_internal (fuel : nat) (x : Q) (pos : string * Q)
  : result (Q * (string * Q)) :=
  if negb (is_internal pos.1) then Ok (x, pos)
  else
    match fuel with
    | O => Timeout
    | S fuel' =>
        let edges := map fst (total_edgestarts sc) in
        match index_of pos.1 edges with
        | None => Raise StopIteration
        | Some indx_edge =>
            let next_indx :=
              if (indx_edge =? length edges - 1)%nat then O
              else S indx_edge in
            match total_edgestarts sc !! next_indx with
            | None => Raise IndexError
            | Some next_edge_pos =>
                skip_internal fuel' next_edge_pos.2 (next_edge_pos.1, 0%Q)
            end
        end
    end.

(** Lines 428-430: stride over edges that are not available. *)
Fixpoint seek_available (fuel : nat) (available_edges : list string)
    (x : Q) (pos : string * Q) : result (Q * (string * Q)) :=
  if bool_decide (pos.1 ∈ available_edges) then Ok (x, pos)
  else
    match fuel with
    | O => Timeout
    | S fuel' =>
        let? x' := py_mod (x + edge_length sc pos.1) (net_length sc) in
        match get_edge sc x' with
        | None => Raise TypeError
        | Some pos' => seek_available fuel' available_edges x' pos'
        end
    end.

(** Lines 443-449: one vehicle per lane, side by side. *)
Fixpoint fill_lanes (lanes : list Z) (pos : string * Q)
    (num_vehicles car_count : Z) (acc : placements) : Z * placements :=
  match lanes with
  | [] => (car_count, acc)
  | lane :: r =>
      let car_count := (car_count + 1)%Z in
      let acc := (acc.1 ++ [pos], acc.2 ++ [lane]) in
      if (car_count =? num_vehicles)%Z then (car_count, acc)
      else fill_lanes r pos num_vehicles car_count acc
  end.

(** Lines 405-451: the placement loop. *)
Fixpoint place_loop (fuel : nat) (u : util_out) (flag : bool)
    (num_vehicles : Z) (x increment : Q) (car_count : Z)
    (acc : placements) : result placements :=
  if negb (car_count <? num_vehicles)%Z then Ok acc
  else
    match fuel with
    | O => Timeout
    | S fuel' =>
        match get_edge sc x with
        | None => Raise TypeError
        | Some pos =>
            let? (x, pos) := skip_internal (S fuel') x pos in
            let? (x, pos) :=
              seek_available (S fuel') (u_available_edges u) x pos in
            let '(x, pos, increment) :=
              if flag && negb (Qle_bool VEHICLE_LENGTH pos.2) then
                ((x + VEHICLE_LENGTH)%Q,
                 (pos.1, VEHICLE_LENGTH),
                 (increment
                  - (VEHICLE_LENGTH * Qof (num_lanes sc pos.1))
                    / Qof (num_vehicles - car_count))%Q)
              else (x, pos, increment) in
            let '(car_count, acc) :=
              fill_lanes
                (py_range (Z.min (num_lanes sc pos.1)
                                 (u_lanes_distribution u)))
                pos num_vehicles car_count acc in
            let? x :=
              py_mod (x + increment + VEHICLE_LENGTH + u_min_gap u)
                     (net_length sc) in
            place_loop fuel' u flag num_vehicles x increment car_count acc
        end
    end.

(** Lines 455-460: the perturbation of the [i]-th start position by the
    next Gaussian draw, kept inside the edge. *)
Fixpoint perturb_loop (idx : list nat) (drawn : nat)
    (startpositions : list (string * Q)) : result (list (string * Q)) :=
  match idx with
  | [] => Ok startpositions
  | i :: r =>
      let perturb := gauss (drawn + i) in
      match startpositions !! i with
      | None => Raise IndexError
      | Some (edge, pos) =>
          let pos :=
            py_max 0 (py_min (edge_length sc edge) (pos + perturb)) in
          perturb_loop r drawn (<[i := (edge, pos)]> startpositions)
      end
  end.

(** [any(lanes[0] != lanes[i] for i in range(1, len(lanes)))] *)
Definition lanes_differ (lanes : list Z) : bool :=
  match lanes with
  | [] => false
  | l0 :: r => existsb (fun l => negb (l0 =? l)%Z) r
  end.

(** [gen_even_start_pos] on an [edges_distribution] that is not a
    dictionary (lines 382-462). *)
Definition gen_even_plain (fuel : nat) (num_vehicles : Z) (h : heap)
  : result (placements * heap) :=
  let initial_config := h_config h in
  let? u := _get_start_pos_util sc initial_config num_vehicles kw in
  if (num_vehicles =? 0)%Z then Ok (([], []), h)
  else
    let increment := (u_available_length u / Qof num_vehicles)%Q in
    let flag := lanes_differ (map (num_lanes sc) (get_edge_list sc)) in
    let? (startpositions, startlanes) :=
      place_loop fuel u flag num_vehicles (u_x0 u) increment 0%Z ([], []) in
    if negb (Qle_bool (perturbation initial_config) 0) then
      let n := Z.to_nat num_vehicles in
      let? startpositions :=
        perturb_loop (seq 0 n) (h_gauss h) startpositions in
      Ok ((startpositions, startlanes),
          MkHeap (h_config h) (h_total_veh_types h)
                 (h_gauss h + n) (h_unif h))
    else Ok ((startpositions, startlanes), h).

(** Lines 345-357: the vehicle total of a dictionary-form distribution.
    The type of the first value decides how all of them are summed; a
    value of the other kind makes the sum raise [TypeError]. *)
Definition as_int (v : dist_value) : result Z :=
  match v with
  | CountInt n => Ok n
  | CountPairs _ => Raise TypeError
  end.

Definition as_pairs_total (v : dist_value) : result Z :=
  match v with
  | CountInt _ => Raise TypeError
  | CountPairs l => Ok (sumZ (map snd l))
  end.

Fixpoint sum_results (f : dist_value -> result Z)
    (acc : Z) (l : list (string * dist_value)) : result Z :=
  match l with
  | [] => Ok acc
  | kv :: r => let? n := f kv.2 in sum_results f (acc + n)%Z r
  end.

Definition num_vehicles_e (d : list (string * dist_value)) : result Z :=
  match d with
  | [] => Raise IndexError
  | (_, CountInt _) :: _ => sum_results as_int 0%Z d
  | (_, CountPairs _) :: _ => sum_results as_pairs_total 0%Z d
  end.

(** The expansion loop shared by the two strategies (lines 360-380 and
    495-518): [initial_config.edges_distribution] is set to the one-key
    list, the vehicle types of the key are recorded, and the strategy is
    called again, now on a list. *)
Fixpoint expand_keys
    (strategy : Z -> heap -> result (placements * heap))
    (items : list (string * dist_value)) (acc : placements) (h : heap)
  : result (placements * heap) :=
  match items with
  | [] => Ok (acc, h)
  | (key, v) :: r =>
      let h := with_config h
                 (set_edges_distribution (h_config h) (DistList [key])) in
      let h := match v with
               | CountInt _ => h
               | CountPairs _ => extend_veh_types h (key_veh_ids v)
               end in
      let? ((pos, lane), h) := strategy (key_count v) h in
      expand_keys strategy r (acc.1 ++ pos, acc.2 ++ lane) h
  end.

Definition gen_even_start_pos (fuel : nat) (num_vehicles : Z) (h : heap)
  : result (placements * heap) :=
  match edges_distribution (h_config h) with
  | DistDict d =>
      let? total := num_vehicles_e d in
      if negb (num_vehicles =? total)%Z then Raise AssertionError
      else expand_keys (gen_even_plain fuel) d ([], []) h
  | _ => gen_even_plain fuel num_vehicles h
  end.

(** *** The random strategy *)

(** [list.sort()] on numbers. *)
Fixpoint insert_sorted (a : Q) (l : list Q) : list Q :=
  match l with
  | [] => [a]
  | b :: r => if Qle_bool a b then a :: b :: r else b :: insert_sorted a r
  end.

Definition sort_asc (l : list Q) : list Q := foldr insert_sorted [] l.

(** [min([self.num_lanes(edge), lanes_distr])] *)
Definition usable_lanes (u : util_out) (edge : string) : Z :=
  Z.min (num_lanes sc edge) (u_lanes_distribution u).

(** Lines 550-570: the edge, offset and lane of the absolute position [a],
    walking forward from [available_edges[edge_indx]]. *)
Fixpoint walk_edges (fuel : nat) (u : util_out) (efs a decrement : Q)
    (edge_indx : nat) : result (string * Q * Z * Q * nat) :=
  match u_available_edges u !! edge_indx with
  | None => Raise IndexError
  | Some edge_i =>
      let span := (edge_length sc edge_i - efs)%Q in
      let? pos_i := py_mod (a - decrement) span in
      let lane_i := py_int (((a - decrement) - pos_i) / span) in
      let pos_i := (pos_i + efs)%Q in
      if (usable_lanes u edge_i - 1 <? lane_i)%Z then
        match fuel with
        | O => Timeout
        | S fuel' =>
            walk_edges fuel' u efs a
              (decrement + Qof (usable_lanes u edge_i) * span)%Q
              (S edge_indx)
        end
      else Ok (edge_i, pos_i, lane_i, decrement, edge_indx)
  end.

(** Lines 549-573: one vehicle after the other, [decrement] and
    [edge_indx] carried along. *)
Fixpoint random_loop (u : util_out) (efs : Q) (positions : list Q)
    (decrement : Q) (edge_indx : nat) (acc : placements)
  : result placements :=
  match positions with
  | [] => Ok acc
  | a :: r =>
      let? (edge_i, pos_i, lane_i, decrement, edge_indx) :=
        walk_edges (List.length (u_available_edges u)) u efs a
                   decrement edge_indx in
      random_loop u efs r decrement edge_indx
                  (acc.1 ++ [(edge_i, pos_i)], acc.2 ++ [lane_i])
  end.

(** [gen_random_start_pos] on an [edges_distribution] that is not a
    dictionary (lines 520-575). *)
Definition gen_random_plain (num_vehicles : Z) (h : heap)
  : result (placements * heap) :=
  let initial_config := h_config h in
  let? u := _get_start_pos_util sc initial_config num_vehicles kw in
  let efs := (u_min_gap u + VEHICLE_LENGTH)%Q in
  let available_length :=
    foldl (fun al edge => (al - efs * Qof (usable_lanes u edge))%Q)
          (u_available_length u) (u_available_edges u) in
  let n := Z.to_nat num_vehicles in
  let init_absolute_pos :=
    map (fun j => (unif (h_unif h + j) * available_length)%Q) (seq 0 n) in
  let init_absolute_pos := sort_asc init_absolute_pos in
  let init_absolute_pos :=
    imap (fun i a => (a + (VEHICLE_LENGTH + u_min_gap u) * Qof (Z.of_nat i))%Q)
         init_absolute_pos in
  let? res := random_loop u efs init_absolute_pos 0%Q O ([], []) in
  Ok (res, MkHeap (h_config h) (h_total_veh_types h)
                  (h_gauss h) (h_unif h + n)).

(** [gen_random_start_pos]: the check of the vehicle total is commented
    out in the source (lines 487-492), so a dictionary goes to the
    expansion loop directly. *)
Definition gen_random_start_pos (num_vehicles : Z) (h : heap)
  : result (placements * heap) :=
  match edges_distribution (h_config h) with
  | DistDict d => expand_keys gen_random_plain d ([], []) h
  | _ => gen_random_plain num_vehicles h
  end.

Definition gen_custom_start_pos (num_vehicles : Z) (h : heap)
  : result (placements * heap) :=
  Raise NotImplementedError.

Definition BAD_SPACING : string :=
  "spacing argument in initial_config does not contain a valid option".

(** [generate_starting_positions]; [fleet] is
    [self.vehicles.num_vehicles]. *)
Definition generate_starting_positions (fuel : nat) (fleet : Z)
    (num_vehicles : option Z) (h : heap) : result (placements * heap) :=
  let num_vehicles :=
    match num_vehicles with
    | Some n => if (n =? 0)%Z then fleet else n
    | None => fleet
    end in
  let mode := spacing (h_config h) in
  if String.eqb mode "uniform" then gen_even_start_pos fuel num_vehicles h
  else if String.eqb mode "random" then gen_random_start_pos num_vehicles h
  else if String.eqb mode "custom" then gen_custom_start_pos num_vehicles h
  else Raise (ValueError BAD_SPACING).

End Placement.

(** ** Import of the connections ([_import_edges_from_net]) *)

(** [s.rsplit("_", 1)[1]]: what follows the last underscore; there is no
    second element when the string has no underscore. *)
Fixpoint rsplit_tail (s : string) : option string :=
  match s with
  | EmptyString => None
  | String c r =>
      match rsplit_tail r with
      | Some t => Some t
      | None => if is_underscore c then Some r else None
      end
  end.

(** [d[k]] on a dictionary of strings. *)
Definition attr (attrib : gmap string string) (k : string) : result string :=
  match attrib !! k with
  | Some v => Ok v
  | None => Raise KeyError
  end.

Definition INVALID_INT : string := "invalid literal for int()".

(** Lines 1383-1397: the entry of [(to_edge, to_lane)] under
    [(from_edge, from_lane)], the dictionary of the edge and the list of the
    lane being created when they are missing. *)
Definition add_conn (t : conn_table) (edge : string) (lane : Z)
    (target : string * Z) : conn_table :=
  let by_lane := default ∅ (t !! edge) in
  let targets := default [] (by_lane !! lane) in
  <[edge := <[lane := targets ++ [target]]> by_lane]> t.

Section ImportConnections.

(** Python's [int] on the text of an attribute; [None] stands for its
    [ValueError]. *)
Variable int_of_string : string -> option Z.

Definition py_int_str (s : string) : result Z :=
  match int_of_string s with
  | Some z => Ok z
  | None => Raise (ValueError INVALID_INT)
  end.

(** Lines 1371-1381: the two ends of one [connection] element.  From a road
    edge, when the network has internal links, the target is the internal
    lane named by ["via"]. *)
Definition connection_endpoints (no_links : bool)
    (attrib : gmap string string) : result ((string * Z) * (string * Z)) :=
  let? from_edge := attr attrib "from" in
  let? from_lane_text := attr attrib "fromLane" in
  let? from_lane := py_int_str from_lane_text in
  let? colon := first_is_colon from_edge in
  if negb colon && negb no_links then
    let? via := attr attrib "via" in
    let to_edge := rsplit_head via in
    match rsplit_tail via with
    | None => Raise IndexError
    | Some lane_text =>
        let? to_lane := py_int_str lane_text in
        Ok ((from_edge, from_lane), (to_edge, to_lane))
    end
  else
    let? to_edge := attr attrib "to" in
    let? to_lane_text := attr attrib "toLane" in
    let? to_lane := py_int_str to_lane_text in
    Ok ((from_edge, from_lane), (to_edge, to_lane)).

(** Lines 1370-1400: the loop over the [connection] elements. *)
Fixpoint import_connections (no_links : bool)
    (connections : list (gmap string string))
    (next_conn_data prev_conn_data : conn_table)
  : result (conn_table * conn_table) :=
  match connections with
  | [] => Ok (next_conn_data, prev_conn_data)
  | attrib :: r =>
      let? (src, dst) := connection_endpoints no_links attrib in
      import_connections no_links r
        (add_conn next_conn_data src.1 src.2 dst)
        (add_conn prev_conn_data dst.1 dst.2 src)
  end.

End ImportConnections.

(** ** Binding vehicles to start positions ([make_routes]) *)

Definition NO_ID : string := "Supply either ID or Number".

(** [_vehicle]: the identifier of the element; [not id] holds of [None] and
    of the empty string, [not number] of 0. *)
Definition _vehicle_id (type_ : string) (number : Z) (id : option string)
  : result string :=
  match id with
  | Some (String c r) => Ok (String c r)
  | _ =>
      if (number =? 0)%Z then Raise (ValueError NO_ID)
      else Ok (type_ +:+ "_" +:+ pretty number)
  end.

(** A [vehicle] element of the routes file, before its numbers are printed
    as text. *)
Record vehicle_elem : Type := MkVehicle {
  ve_type : string;
  ve_id : string;
  ve_route : string;
  ve_depart_pos : Q;
  ve_depart_lane : Z;
  ve_depart_speed : Q
}.

Section Routes.

(** [vehicles.get_state(veh_id, "type")] and
    [vehicles.get_initial_speed(veh_id)] of the fleet, and what
    [random.shuffle] makes of a list. *)
Variable type_of : string -> string.
Variable initial_speed : string -> Q.
Variable shuffled : list string -> list string.

(** [next(k for k, veh_id in enumerate(vehicle_ids)
          if vehicles.get_state(veh_id, "type") == self.total_veh_types[i])];
    [wanted] is [total_veh_types[i]], read at each vehicle tried. *)
Fixpoint find_of_type (wanted : option string) (vehicle_ids : list string)
  : result nat :=
  match vehicle_ids with
  | [] => Raise StopIteration
  | veh_id :: r =>
      match wanted with
      | None => Raise IndexError
      | Some t =>
          if String.eqb (type_of veh_id) t then Ok O
          else let? k := find_of_type wanted r in Ok (S k)
      end
  end.

(** Lines 1085-1106: one element per (position, lane) pair.  Without
    recorded types the [i]-th identifier is taken; with them the first
    identifier left of the [i]-th recorded type is taken and deleted. *)
Fixpoint bind_vehicles (total_veh_types : list string) (i : nat)
    (vehicle_ids : list string) (pairs : list ((string * Q) * Z))
  : result (list vehicle_elem) :=
  match pairs with
  | [] => Ok []
  | ((edge, pos), lane) :: r =>
      let? (veh_id, vehicle_ids) :=
        match total_veh_types with
        | [] =>
            match vehicle_ids !! i with
            | None => Raise IndexError
            | Some veh_id => Ok (veh_id, vehicle_ids)
            end
        | _ :: _ =>
            let? j := find_of_type (total_veh_types !! i) vehicle_ids in
            match vehicle_ids !! j with
            | None => Raise IndexError
            | Some veh_id => Ok (veh_id, delete j vehicle_ids)
            end
        end in
      let veh_type := type_of veh_id in
      let? id := _vehicle_id veh_type 0 (Some veh_id) in
      let? rest := bind_vehicles total_veh_types (S i) vehicle_ids r in
      Ok (MkVehicle veh_type id ("route" +:+ edge) pos lane
                    (initial_speed veh_id) :: rest)
  end.

(** [make_routes], the vehicle elements it appends: [ids] is
    [vehicles.get_ids()]. *)
Definition make_routes (total_veh_types ids : list string)
    (positions : list (string * Q)) (lanes : list Z) (shuffle_ids : bool)
  : result (list vehicle_elem) :=
  let vehicle_ids := if shuffle_ids then shuffled ids else ids in
  bind_vehicles total_veh_types O vehicle_ids (zip positions lanes).

End Routes.

(** * Notions used by the statements *)

(** An identifier that occurs in none of the tables. *)
Definition unknown (sc : Scenario) (e : string) : Prop :=
  _edges sc !! e = None /\
  _connections_next sc !! e = None /\
  _connections_prev sc !! e = None /\
  internal_edgestarts_dict sc !! e = None /\
  total_edgestarts_dict sc !! e = None.

(** The reading of the merge in which the key is the edge identifier. *)
Fixpoint dedup_by_id (seen : list string) (l : list (string * Q))
  : list (string * Q) :=
  match l with
  | [] => []
  | item :: r =>
      if bool_decide (item.1 ∈ seen) then dedup_by_id seen r
      else item :: dedup_by_id (item.1 :: seen) r
  end.

(** The start positions that survive are pairwise different. *)
Inductive distinct_pos : list (string * Q) -> Prop :=
  | distinct_nil : distinct_pos []
  | distinct_cons a l :
      (forall b, b ∈ l -> ~ (b.2 == a.2)%Q) ->
      distinct_pos l -> distinct_pos (a :: l).


(** The offset of a start position lies on its edge. *)
Definition within_edge (sc : Scenario) (q : string * Q) : Prop :=
  (0 <= q.2)%Q /\ (q.2 <= edge_length sc q.1)%Q.

(** The cursor after one stride (line 451). *)
Definition next_x (sc : Scenario) (u : util_out) (inc x : Q) : Q :=
  let a := (x + inc + VEHICLE_LENGTH + u_min_gap u)%Q in
  (a - Qof (Qfloor (a / net_length sc)) * net_length sc)%Q.

(** The cursor positions of [m] successive strides that start at [x]. *)
Fixpoint stride_positions (sc : Scenario) (u : util_out) (inc : Q) (m : nat)
    (x : Q) : list Q :=
  match m with
  | O => []
  | S m' => x :: stride_positions sc u inc m' (next_x sc u inc x)
  end.

(** The stride of the description. *)
Definition claimed_stride (L g : Q) (N : Z) : Q :=
  ((L - Qof N * (VEHICLE_LENGTH + g)) / Qof N + VEHICLE_LENGTH + g)%Q.

(** The order of two edge starts by position. *)
Definition by_pos (a b : string * Q) : Prop := (a.2 <= b.2)%Q.

(** The frame gives every identifier one entry, none of them the empty
    identifier, and the declared edge starts name road edges. *)
Definition well_formed_frame (n : NetSpec) (sc : Scenario) : Prop :=
  NoDup (map fst (total_edgestarts sc)) /\
  (forall e, e ∈ map fst (total_edgestarts sc) -> e <> EmptyString) /\
  (forall e, e ∈ map fst (specify_edge_starts n) ->
     first_is_colon e = Ok false).

(** A road edge: an identifier that is not empty and does not start with a
    colon. *)
Definition is_road (k : string) : bool :=
  match k with
  | EmptyString => false
  | String c _ => negb (is_colon c)
  end.

(** The lane index is one of the lanes of the edge of the start position. *)
Definition lane_of_edge (sc : Scenario) (q : string * Q) (lane : Z) : Prop :=
  (0 <= lane < num_lanes sc q.1)%Z.

(** The vehicles a mapping asks for, key by key. *)
Definition mapping_total (d : list (string * dist_value)) : Z :=
  foldr (fun kv a => (key_count kv.2 + a)%Z) 0%Z d.

(** Every count of a mapping-form distribution is non-negative. *)
Definition counts_nonneg (d : edges_dist) : Prop :=
  match d with
  | DistDict items => Forall (fun kv => (0 <= key_count kv.2)%Z) items
  | _ => True
  end.

(** A placement of the random strategy under the configuration [c]: the
    edge is a candidate, the offset leaves the front space of the minimum
    gap and one vehicle and stays before the end of the edge, and the lane
    index is below the lane count of the edge. *)
Definition random_placed (sc : Scenario) (c : InitialConfig)
    (q : string * Q) (lane : Z) : Prop :=
  q.1 ∈ dist_edges sc (edges_distribution c) /\
  (py_max 0 (min_gap c) + VEHICLE_LENGTH <= q.2)%Q /\
  (q.2 < edge_length sc q.1)%Q /\
  (lane < num_lanes sc q.1)%Z.

(** The vehicle types a call of a strategy records in
    [self.total_veh_types]: those of the pair lists of a mapping, key by
    key. *)
Definition recorded_types (d : edges_dist) : list string :=
  match d with
  | DistDict items => flat_map (fun kv => key_veh_ids kv.2) items
  | _ => []
  end.

(** All values of a mapping are counts, or all are pair lists. *)
Definition same_kind (d : list (string * dist_value)) : Prop :=
  Forall (fun kv => exists n, kv.2 = CountInt n) d \/
  Forall (fun kv => exists l, kv.2 = CountPairs l) d.

(** [name + "_" + suffix] *)
Definition with_suffix (name suffix : string) : string :=
  name +:+ String "_"%char suffix.

(** What a vehicle element takes from the (position, lane) pair it is bound
    to and from the fleet. *)
Definition bound_to (type_of : string -> string) (initial_speed : string -> Q)
    (el : vehicle_elem) (p : (string * Q) * Z) : Prop :=
  ve_route el = "route" +:+ p.1.1 /\
  ve_depart_pos el = p.1.2 /\
  ve_depart_lane el = p.2 /\
  ve_type el = type_of (ve_id el) /\
  ve_depart_speed el = initial_speed (ve_id el).

(** [num_vehicles or self.vehicles.num_vehicles] *)
Definition requested (fleet : Z) (num_vehicles : option Z) : Z :=
  match num_vehicles with
  | Some n => if (n =? 0)%Z then fleet else n
  | None => fleet
  end.

(** The number of placements the random strategy produces. *)
Definition random_total (d : edges_dist) (num_vehicles : Z) : Z :=
  match d with
  | DistDict items => mapping_total items
  | _ => num_vehicles
  end.

(** * Networks and configurations of the concrete runs *)

(** Two one-lane road edges of 50 m joined by a junction of 10 m: ["a"] on
    [0, 50), [":j"] on [50, 60), ["b"] from 60 on; internal links are part
    of the frame. *)
Definition ring_spec : NetSpec :=
  MkNetSpec
    [("a"%string, EdgeData 50 1 30); ("b"%string, EdgeData 50 1 30);
     (":j"%string, EdgeData 10 1 30)]
    ∅ ∅
    [("a"%string, 0%Q); ("b"%string, 60%Q)]
    [(":j"%string, 50%Q)]
    []
    false None.

(** The scenario [__init__] makes of it. *)
Definition ring : Scenario :=
  MkScenario
    (dict [("a"%string, EdgeData 50 1 30); ("b"%string, EdgeData 50 1 30);
           (":j"%string, EdgeData 10 1 30)])
    ∅ ∅
    ["a"%string; "b"%string]
    30
    [("a"%string, 0%Q); ("b"%string, 60%Q)]
    [(":j"%string, 50%Q)]
    (dict [(":j"%string, 50%Q)])
    [("a"%string, 0%Q); (":j"%string, 50%Q); ("b"%string, 60%Q)]
    (dict [("a"%string, 0%Q); (":j"%string, 50%Q); ("b"%string, 60%Q)])
    100.

(** A uniform configuration over [d] with every other parameter neutral. *)
Definition plain_config (d : edges_dist) : InitialConfig :=
  MkInitialConfig false "uniform" 0 0 0 0 1 d.

(** The same with the random strategy. *)
Definition random_config (d : edges_dist) : InitialConfig :=
  MkInitialConfig false "random" 0 0 0 0 1 d.

(** The heap at the first call: no vehicle type recorded, no draw taken. *)
Definition fresh_heap (c : InitialConfig) : heap := MkHeap c [] 0 0.

(** The mapping [{"a": 3, "b": 2}]. *)
Definition three_and_two : edges_dist :=
  DistDict [("a"%string, CountInt 3); ("b"%string, CountInt 2)].

(** Every draw of [random.random()] is 1/2. *)
Definition half_draws (i : nat) : Q := (1 # 2)%Q.

(** Gaussian draws far beyond any edge, on either side in turn. *)
Definition wild_draws (i : nat) : Q :=
  if Nat.even i then 1000%Q else (-1000)%Q.

(** A network of one road edge [e] of length [L] with one lane, which starts
    at 0, and the scenario [__init__] makes of it. *)
Definition single_spec (e : string) (L speed : Q) (links : bool) : NetSpec :=
  MkNetSpec [(e, EdgeData L 1 speed)] ∅ ∅ [(e, 0%Q)] [] [] links None.

Definition single_scenario (e : string) (L speed : Q) : Scenario :=
  MkScenario (dict [(e, EdgeData L 1 speed)]) ∅ ∅ [e]
    (table_speed (dict [(e, EdgeData L 1 speed)]) e)
    [(e, 0%Q)] [] (dict []) [(e, 0%Q)] (dict [(e, 0%Q)])
    (sumQ [table_length (dict [(e, EdgeData L 1 speed)]) e]).

(** The uniform configuration with minimum gap [g], [x0 = 0], no bunching
    and no perturbation, over all edges. *)
Definition single_config (g : Q) (lanes_req : Z) : InitialConfig :=
  MkInitialConfig false "uniform" g 0 0 0 lanes_req DistAll.

(** One edge of 20 m. *)
Definition short_edge : Scenario := single_scenario "e" 20 30.

(** Decimal numerals, the attribute texts of the concrete runs. *)
Definition digit (c : ascii) : option Z :=
  let n := nat_of_ascii c in
  if (48 <=? n)%nat && (n <=? 57)%nat then Some (Z.of_nat (n - 48)) else None.

Fixpoint digits_from (acc : Z) (s : string) : option Z :=
  match s with
  | EmptyString => Some acc
  | String c r =>
      match digit c with
      | Some d => digits_from (10 * acc + d) r
      | None => None
      end
  end.

Definition digits (s : string) : option Z :=
  match s with
  | EmptyString => None
  | _ => digits_from 0 s
  end.

(** The connections of the ring: [a] to [b] through the internal link
    [:j], lane 0 throughout. *)
Definition ring_connections : list (gmap string string) :=
  [ {[ "from"%string := "a"%string; "fromLane"%string := "0"%string;
       "to"%string := "b"%string; "toLane"%string := "0"%string;
       "via"%string := ":j_0"%string ]};
    {[ "from"%string := ":j"%string; "fromLane"%string := "0"%string;
       "to"%string := "b"%string; "toLane"%string := "0"%string ]} ].

Definition linked_ring_spec : NetSpec :=
  MkNetSpec
    [("a"%string, EdgeData 50 1 30); ("b"%string, EdgeData 50 1 30);
     (":j"%string, EdgeData 10 1 30)]
    {[ "a"%string := {[ 0%Z := [(":j"%string, 0%Z)] ]};
       ":j"%string := {[ 0%Z := [("b"%string, 0%Z)] ]} ]}
    {[ ":j"%string := {[ 0%Z := [("a"%string, 0%Z)] ]};
       "b"%string := {[ 0%Z := [(":j"%string, 0%Z)] ]} ]}
    [("a"%string, 0%Q); ("b"%string, 60%Q)]
    [(":j"%string, 50%Q)]
    []
    false None.

(** A fleet of two types. *)
Definition fleet_type (veh_id : string) : string :=
  if String.eqb veh_id "h0" || String.eqb veh_id "h1" then "human"%string
  else "rl"%string.

(** * Properties *)

(** ** The example network *)

Lemma ring_init : Scenario_init ring_spec = Ok ring.
Proof. vm_compute. reflexivity. Qed.

(** ** Lookups of unknown identifiers *)

Lemma conn_lookup_unknown (t : conn_table) (edge : string) (lane : Z) :
  t !! edge = None -> conn_lookup t edge lane = [].
Proof. intros H. unfold conn_lookup. now rewrite H. Qed.

(** C3, as stated, fails: on an identifier that is in no table and does not
    start with a colon, [get_x] raises [KeyError]. *)
Lemma C3_get_x_raises_on_unknown_edge :
  unknown ring "ghost"%string /\
  get_x ring "ghost"%string 0%Q = Raise KeyError /\
  ~ (forall sc e p, unknown sc e -> exists v, get_x sc e p = Ok v).
Proof.
  assert (U : unknown ring "ghost"%string)
    by (repeat split; vm_compute; reflexivity).
  assert (R : get_x ring "ghost"%string 0%Q = Raise KeyError)
    by (vm_compute; reflexivity).
  repeat split; try exact R; try apply U.
  intros H. destruct (H ring "ghost"%string 0%Q U) as [v Hv].
  rewrite R in Hv. discriminate Hv.
Qed.

(** C3, amended: for an identifier in no table, [edge_length], [num_lanes]
    and [speed_limit] return -1001 and [next_edge], [prev_edge] return the
    empty list; [get_x] returns -1001 on the empty identifier, on a
    colon-prefixed one it returns the table entry of the identifier stripped
    of its last underscore token, or -1001 when there is none, and on any
    other unknown identifier it raises [KeyError]. *)
Theorem C3_unknown_identifier_queries
    (sc : Scenario) (e : string) (lane : Z) (position : Q) :
  unknown sc e ->
  edge_length sc e = Qof NOT_FOUND /\
  num_lanes sc e = NOT_FOUND /\
  speed_limit sc e = Qof NOT_FOUND /\
  next_edge sc e lane = [] /\
  prev_edge sc e lane = [] /\
  (e = EmptyString -> get_x sc e position = Ok (Qof NOT_FOUND)) /\
  (forall c r, e = String c r -> is_colon c = true ->
     get_x sc e position =
       Ok (default (Qof NOT_FOUND)
                   (total_edgestarts_dict sc !! rsplit_head e))) /\
  (forall c r, e = String c r -> is_colon c = false ->
     get_x sc e position = Raise KeyError).
Proof.
  intros (He & Hn & Hp & Hi & Ht).
  unfold edge_length, num_lanes, speed_limit, table_length, table_lanes,
    table_speed, next_edge, prev_edge.
  rewrite He, (conn_lookup_unknown _ _ _ Hn), (conn_lookup_unknown _ _ _ Hp).
  repeat split.
  - intros ->. reflexivity.
  - intros c r -> Hc. unfold get_x. rewrite Hc, Hi. reflexivity.
  - intros c r -> Hc. unfold get_x. rewrite Hc, Ht. reflexivity.
Qed.

Lemma C3_unknown_identifier_queries_witness :
  unknown ring ":gone_0"%string /\
  edge_length ring ":gone_0"%string = Qof NOT_FOUND /\
  get_x ring ":gone_0"%string 3%Q = Ok (Qof NOT_FOUND).
Proof.
  assert (U : unknown ring ":gone_0"%string)
    by (repeat split; vm_compute; reflexivity).
  split; [exact U |].
  destruct (C3_unknown_identifier_queries ring ":gone_0"%string
              0%Z 3%Q U) as (Hlen & _ & _ & _ & _ & _ & Hcolon & _).
  split; [exact Hlen |].
  rewrite (Hcolon _ _ eq_refl eq_refl). vm_compute. reflexivity.
Defined.

(** ** Merging the internal and the intersection edge starts *)

(** C4, as stated, fails: an identifier listed twice at two offsets stays
    twice in the merged list, and an identifier that shares its offset with
    an earlier entry is dropped; keyed by identifier the result would
    differ. *)
Lemma C4_merge_is_not_keyed_by_identifier :
  let internal := [(":a"%string, 0%Q); (":a"%string, 5%Q)] in
  let intersection := [(":b"%string, 0%Q)] in
  let merged := merge_internal_edgestarts internal intersection in
  merged = [(":a"%string, 0%Q); (":a"%string, 5%Q)] /\
  ~ NoDup (map fst merged) /\
  merged <> dedup_by_id [] (internal ++ intersection).
Proof.
  cbv zeta. split; [reflexivity |]. split.
  - vm_compute. intros H. apply NoDup_cons in H as [H _].
    apply H. left.
  - vm_compute. discriminate.
Qed.

Lemma seen_mem_true (p : Q) (seen : list Q) :
  seen_mem p seen = true <-> exists q, q ∈ seen /\ (p == q)%Q.
Proof.
  unfold seen_mem. rewrite existsb_exists. split.
  - intros (q & Hin & Hq). exists q. split.
    + now apply list_elem_of_In.
    + now apply Qeq_bool_iff.
  - intros (q & Hin & Hq). exists q. split.
    + now apply list_elem_of_In.
    + now apply Qeq_bool_iff.
Qed.

Lemma seen_mem_false (p : Q) (seen : list Q) :
  seen_mem p seen = false <-> forall q, q ∈ seen -> ~ (p == q)%Q.
Proof.
  rewrite <- not_true_iff_false, seen_mem_true. split.
  - intros H q Hin Hq. apply H. eauto.
  - intros H (q & Hin & Hq). exact (H q Hin Hq).
Qed.

Lemma dedup_seen_sublist (seen : list Q) (l : list (string * Q)) :
  sublist (dedup_seen seen l) l.
Proof.
  revert seen. induction l as [| item r IH]; intros seen; simpl.
  - constructor.
  - destruct (seen_mem item.2 seen).
    + apply sublist_cons, IH.
    + apply sublist_skip, IH.
Qed.

Lemma dedup_seen_fresh (seen : list Q) (l : list (string * Q)) item :
  item ∈ dedup_seen seen l -> forall q, q ∈ seen -> ~ (item.2 == q)%Q.
Proof.
  revert seen. induction l as [| a r IH]; intros seen; simpl.
  - intros H. inversion H.
  - destruct (seen_mem a.2 seen) eqn:Hs.
    + apply IH.
    + intros H q Hq. apply elem_of_cons in H as [-> | H].
      * rewrite seen_mem_false in Hs. now apply Hs.
      * apply (IH _ H). now right.
Qed.

Lemma dedup_seen_distinct (seen : list Q) (l : list (string * Q)) :
  distinct_pos (dedup_seen seen l).
Proof.
  revert seen. induction l as [| a r IH]; intros seen; simpl.
  - constructor.
  - destruct (seen_mem a.2 seen); [apply IH |].
    constructor; [| apply IH].
    intros b Hb. apply (dedup_seen_fresh _ _ _ Hb). now left.
Qed.

Lemma dedup_seen_keeps_first (seen : list Q) (l : list (string * Q)) item :
  item ∈ l -> seen_mem item.2 seen = false ->
  exists kept,
    find (fun b => Qeq_bool b.2 item.2) l = Some kept /\
    kept ∈ dedup_seen seen l.
Proof.
  revert seen. induction l as [| a r IH]; intros seen Hin Hfresh.
  - inversion Hin.
  - simpl. destruct (Qeq_bool a.2 item.2) eqn:Ha.
    + exists a. split; [reflexivity |].
      apply Qeq_bool_iff in Ha.
      assert (Hs : seen_mem a.2 seen = false).
      { rewrite seen_mem_false in *. intros q Hq Hc.
        apply (Hfresh q Hq). now rewrite <- Ha. }
      rewrite Hs. now left.
    + apply elem_of_cons in Hin as [-> | Hin].
      { exfalso. assert (E : Qeq_bool a.2 a.2 = true)
          by now apply Qeq_bool_iff.
        congruence. }
      destruct (seen_mem a.2 seen) eqn:Hs.
      * apply IH; assumption.
      * destruct (IH (a.2 :: seen) Hin) as (kept & Hf & Hk).
        { rewrite seen_mem_false in *. intros q Hq Hc.
          apply elem_of_cons in Hq as [-> | Hq].
          - assert (E : Qeq_bool a.2 item.2 = true).
            { apply Qeq_bool_iff. now symmetry. }
            congruence.
          - exact (Hfresh q Hq Hc). }
        exists kept. split; [exact Hf | now right].
Qed.

(** C4, amended: the merge removes duplicates keyed by the start position
    (the second component), keeping the first entry of each position: the
    merged list is a sub-list of the concatenation, its positions are
    pairwise different, and for every entry of the concatenation the first
    entry with that position is in the merged list. *)
Theorem C4_merge_keyed_by_position
    (internal intersection : list (string * Q)) :
  let l := internal ++ intersection in
  let merged := merge_internal_edgestarts internal intersection in
  sublist merged l /\
  distinct_pos merged /\
  forall item, item ∈ l ->
    exists kept,
      find (fun b => Qeq_bool b.2 item.2) l = Some kept /\ kept ∈ merged.
Proof.
  cbv zeta. unfold merge_internal_edgestarts. split; [| split].
  - apply dedup_seen_sublist.
  - apply dedup_seen_distinct.
  - intros item Hin. now apply dedup_seen_keeps_first.
Qed.

(** ** [_get_start_pos_util] *)

Lemma resolve_bunching_override (c : InitialConfig) (kw : kwargs) (v : Q) :
  kw !! "bunching"%string = Some v -> resolve_bunching c kw = v.
Proof. intros H. unfold resolve_bunching. now rewrite H. Qed.

Lemma resolve_bunching_clamped (c : InitialConfig) (kw : kwargs) :
  kw !! "bunching"%string = None -> (0 <= resolve_bunching c kw)%Q.
Proof.
  intros H. unfold resolve_bunching. rewrite H.
  destruct (Qlt_le_dec (bunching c) 0); [apply Qle_refl | assumption].
Qed.

(** C10, the code at the failing input: a negative ["bunching"] passed in
    the keyword arguments of a reset is returned as it is, since the
    override is applied after the clamp. *)
Theorem C10_override_bunching_not_clamped :
  exists u,
    _get_start_pos_util ring (plain_config DistAll) 4
      {[ "bunching"%string := (-10)%Q ]} = Ok u /\
    (u_bunching u < 0)%Q.
Proof.
  eexists. split; [vm_compute; reflexivity |]. reflexivity.
Qed.



(** ** The coordinate frame *)

Lemma dict_snoc {V} (l : list (string * V)) (kv : string * V) :
  dict (l ++ [kv]) = <[kv.1 := kv.2]> (dict l).
Proof. unfold dict. now rewrite foldl_app. Qed.

(** When every key occurs once, [dict(l)] maps each key to its value. *)
Lemma dict_lookup_NoDup {V} (l : list (string * V)) (k : string) (v : V) :
  NoDup (map fst l) -> (k, v) ∈ l -> dict l !! k = Some v.
Proof.
  induction l as [| kv l IH] using rev_ind; intros Hnd Hin.
  - inversion Hin.
  - rewrite dict_snoc. rewrite map_app in Hnd. simpl in Hnd.
    apply NoDup_app in Hnd as (Hl & Hfresh & _).
    apply elem_of_app in Hin as [Hin | Hin].
    + rewrite lookup_insert_ne; [now apply IH |].
      intros <-. apply (Hfresh kv.1); [| now left].
      apply list_elem_of_fmap. exists (kv.1, v).
      split; [reflexivity | exact Hin].
    + apply list_elem_of_singleton in Hin. subst kv. simpl.
      apply lookup_insert_eq.
Qed.

Lemma insert_by_pos_perm (a : string * Q) (l : list (string * Q)) :
  insert_by_pos a l ≡ₚ a :: l.
Proof.
  induction l as [| b r IH]; simpl; [reflexivity |].
  destruct (Qle_bool a.2 b.2); [reflexivity |].
  rewrite IH. apply Permutation_swap.
Qed.

Lemma sort_by_pos_perm (l : list (string * Q)) : sort_by_pos l ≡ₚ l.
Proof.
  induction l as [| a r IH]; simpl; [reflexivity |].
  now rewrite insert_by_pos_perm, IH.
Qed.


Lemma get_edge_is_Some (sc : Scenario) (x : Q) (e : string) (s : Q) :
  (e, s) ∈ total_edgestarts sc -> (s <= x)%Q ->
  exists edge pos, get_edge sc x = Some (edge, pos).
Proof.
  intros Hin Hle. unfold get_edge.
  destruct (find _ _) as [[e' s'] |] eqn:Hf; [eauto |].
  exfalso.
  pose proof (find_none _ _ Hf (e, s)) as Hn. simpl in Hn.
  apply Qle_bool_iff in Hle. rewrite Hn in Hle; [discriminate |].
  apply -> in_rev. now apply list_elem_of_In.
Qed.

(** What [__init__] makes of its inputs. *)
Lemma Scenario_init_tables (n : NetSpec) (sc : Scenario) :
  Scenario_init n = Ok sc ->
  let internal :=
    merge_internal_edgestarts (specify_internal_edge_starts n)
                              (specify_intersection_edge_starts n) in
  internal_edgestarts sc = internal /\
  internal_edgestarts_dict sc = dict internal /\
  total_edgestarts_dict sc = dict (total_edgestarts sc) /\
  total_edgestarts sc ≡ₚ
    (if no_internal_links n then specify_edge_starts n
     else specify_edge_starts n ++ internal).
Proof.
  unfold Scenario_init.
  destruct (filter_edge_ids _) as [edge_list | |]; try discriminate.
  simpl rbind.
  destruct (py_max_listQ _) as [top | |]; try discriminate.
  simpl rbind. intros [= <-]. simpl.
  repeat split. apply sort_by_pos_perm.
Qed.



(** ** The uniform strategy: where vehicles are placed *)

Lemma clamp_within (len p : Q) :
  (0 <= len)%Q ->
  (0 <= py_max 0 (py_min len p))%Q /\ (py_max 0 (py_min len p) <= len)%Q.
Proof.
  intros Hlen. unfold py_max, py_min.
  destruct (Qlt_le_dec p len); destruct (Qlt_le_dec 0 _); split; lra.
Qed.

Lemma py_max_0_nonneg (q : Q) : (0 <= py_max 0 q)%Q.
Proof. unfold py_max. destruct (Qlt_le_dec 0 q); lra. Qed.

Lemma long_enough_true (sc : Scenario) (mg : Q) (e : string) :
  long_enough sc mg e = true <-> (mg + VEHICLE_LENGTH < edge_length sc e)%Q.
Proof.
  unfold long_enough. rewrite negb_true_iff, <- not_true_iff_false,
    Qle_bool_iff. split; [apply Qnot_le_lt | apply Qlt_not_le].
Qed.

(** What [_get_start_pos_util] returns when it returns. *)
Lemma util_returns (sc : Scenario) (c : InitialConfig) (N : Z) (kw : kwargs)
    (u : util_out) :
  _get_start_pos_util sc c N kw = Ok u ->
  u_min_gap u = py_max 0 (min_gap c) /\
  u_x0 u = resolve_x0 c kw /\
  u_bunching u = resolve_bunching c kw /\
  u_available_edges u =
    filter (fun e => long_enough sc (u_min_gap u) e = true)
           (dist_edges sc (edges_distribution c)) /\
  (0 <= u_available_length u)%Q.
Proof.
  unfold _get_start_pos_util.
  destruct (py_max_list _) as [max_lane | |]; try discriminate.
  simpl rbind. destruct (Qlt_le_dec _ 0); [discriminate |].
  intros [= <-]. simpl. repeat split. assumption.
Qed.

(** An available edge is a candidate and is longer than one vehicle. *)
Lemma util_available (sc : Scenario) (c : InitialConfig) (N : Z)
    (kw : kwargs) (u : util_out) (e : string) :
  _get_start_pos_util sc c N kw = Ok u ->
  e ∈ u_available_edges u ->
  e ∈ dist_edges sc (edges_distribution c) /\
  (VEHICLE_LENGTH < edge_length sc e)%Q.
Proof.
  intros Hu He.
  destruct (util_returns _ _ _ _ _ Hu) as (Hmg & _ & _ & Hav & _).
  rewrite Hav in He. apply list_elem_of_filter in He as [Hlong Hin].
  split; [exact Hin |].
  apply long_enough_true in Hlong.
  pose proof (py_max_0_nonneg (min_gap c)) as Hnn. rewrite <- Hmg in Hnn.
  lra.
Qed.

Section UniformFacts.

Variable sc : Scenario.
Variable gauss : nat -> Q.
Variable kw : kwargs.

Lemma seek_available_spec (fuel : nat) (available_edges : list string)
    (x : Q) (pos : string * Q) (x' : Q) (pos' : string * Q) :
  seek_available sc fuel available_edges x pos = Ok (x', pos') ->
  pos'.1 ∈ available_edges.
Proof.
  revert x pos. induction fuel as [| fuel IH]; intros x pos; simpl.
  - case_bool_decide as Hin; [| discriminate].
    now intros [= <- <-].
  - case_bool_decide as Hin; [now intros [= <- <-] |].
    destruct (py_mod _ _) as [x1 | |]; try discriminate. simpl rbind.
    destruct (get_edge sc x1) as [pos1 |]; [| discriminate].
    apply IH.
Qed.

Lemma fill_lanes_spec (lanes : list Z) (pos : string * Q) (N cc : Z)
    (acc : placements) (cc' : Z) (acc' : placements) :
  fill_lanes lanes pos N cc acc = (cc', acc') ->
  exists k : nat,
    acc'.1 = acc.1 ++ replicate k pos /\
    cc' = (cc + Z.of_nat k)%Z /\
    ((cc < N)%Z -> (cc' <= N)%Z).
Proof.
  revert cc acc. induction lanes as [| lane r IH]; intros cc acc; simpl.
  - intros [= <- <-]. exists O. simpl. rewrite app_nil_r.
    repeat split; lia.
  - destruct (cc + 1 =? N)%Z eqn:Heq.
    + intros [= <- <-]. exists 1%nat. simpl. repeat split; lia.
    + intros H. apply IH in H as (k & H1 & H2 & H3). simpl in H1.
      exists (S k). rewrite H1, <- app_assoc. simpl.
      apply Z.eqb_neq in Heq. repeat split; lia.
Qed.

(** Every vehicle of the loop stands on an available edge, and the loop
    ends with exactly [N] vehicles. *)
Lemma place_loop_spec (fuel : nat) (u : util_out) (flag : bool) (N : Z) :
  forall (x inc : Q) (cc : Z) (acc acc' : placements),
    place_loop sc fuel u flag N x inc cc acc = Ok acc' ->
    (cc <= N)%Z ->
    Z.of_nat (List.length acc.1) = cc ->
    Forall (fun q => q.1 ∈ u_available_edges u) acc.1 ->
    Forall (fun q => q.1 ∈ u_available_edges u) acc'.1 /\
    Z.of_nat (List.length acc'.1) = N.
Proof.
  induction fuel as [| fuel IH]; intros x inc cc acc acc' Hrun Hle Hlen Hall;
    cbn [place_loop] in Hrun;
    destruct (cc <? N)%Z eqn:Hlt; cbn [negb] in Hrun;
    try discriminate;
    try (injection Hrun as <-; apply Z.ltb_ge in Hlt;
         split; [assumption | lia]).
  apply Z.ltb_lt in Hlt.
  destruct (get_edge sc x) as [pos |]; [| discriminate].
  destruct (skip_internal _ _ _ _) as [[x1 pos1] | |]; try discriminate.
  cbn [rbind] in Hrun.
  destruct (seek_available _ _ _ _ _) as [[x2 pos2] | |] eqn:Hseek;
    try discriminate.
  cbn [rbind] in Hrun.
  apply seek_available_spec in Hseek.
  set (branch := flag && negb (Qle_bool VEHICLE_LENGTH pos2.2)) in Hrun.
  assert (Hstep : forall x3 (pos3 : string * Q) inc3 r,
    pos3.1 = pos2.1 ->
    (let '(car_count, acc0) :=
       fill_lanes (py_range (Z.min (num_lanes sc pos3.1)
                                   (u_lanes_distribution u)))
                  pos3 N cc acc in
     let? x4 := py_mod (x3 + inc3 + VEHICLE_LENGTH + u_min_gap u)
                       (net_length sc) in
     place_loop sc fuel u flag N x4 inc3 car_count acc0) = Ok r ->
    Forall (fun q => q.1 ∈ u_available_edges u) r.1 /\
    Z.of_nat (List.length r.1) = N).
  { intros x3 pos3 inc3 r Hname Hr.
    destruct (fill_lanes _ _ _ _ _) as [cc' acc0] eqn:Hfill.
    apply fill_lanes_spec in Hfill as (k & Hacc & Hcc & Hbound).
    destruct (py_mod _ _) as [x4 | |]; try discriminate.
    cbn [rbind] in Hr. apply IH in Hr; [exact Hr | lia | |].
    - rewrite Hacc, length_app, length_replicate. lia.
    - rewrite Hacc. apply Forall_app. split; [assumption |].
      apply Forall_replicate. now rewrite Hname. }
  destruct branch; eapply Hstep; try exact Hrun; reflexivity.
Qed.

Lemma perturb_loop_names (idx : list nat) (drawn : nat) :
  forall sp sp',
    perturb_loop sc gauss idx drawn sp = Ok sp' ->
    map fst sp' = map fst sp.
Proof.
  induction idx as [| i r IH]; intros sp sp'; simpl.
  - now intros [= <-].
  - destruct (sp !! i) as [[edge pos] |] eqn:Hi; [| discriminate].
    intros H. apply IH in H. rewrite H.
    rewrite list_fmap_insert. simpl.
    apply list_insert_id. rewrite list_lookup_fmap, Hi. reflexivity.
Qed.

Lemma perturb_loop_within (k : nat) (drawn : nat) :
  forall (i : nat) sp sp',
    List.length sp = (i + k)%nat ->
    Forall (fun q => (0 <= edge_length sc q.1)%Q) sp ->
    Forall (within_edge sc) (take i sp) ->
    perturb_loop sc gauss (seq i k) drawn sp = Ok sp' ->
    Forall (within_edge sc) sp'.
Proof.
  induction k as [| k IH]; intros i sp sp' Hlen Hgood Hdone; simpl.
  - intros [= <-]. rewrite take_ge in Hdone by lia. exact Hdone.
  - destruct (sp !! i) as [[edge pos] |] eqn:Hi; [| discriminate].
    apply IH.
    + rewrite length_insert. lia.
    + apply Forall_insert; [assumption |]. simpl.
      exact (proj1 (Forall_lookup _ _) Hgood i _ Hi).
    + rewrite (take_S_r _ _ (edge, py_max 0 (py_min (edge_length sc edge)
                                        (pos + gauss (drawn + i))))).
      * rewrite take_insert_ge by lia.
        apply Forall_app. split; [assumption |].
        constructor; [| constructor].
        apply clamp_within.
        exact (proj1 (Forall_lookup _ _) Hgood i _ Hi).
      * apply list_lookup_insert_eq. apply lookup_lt_Some in Hi. exact Hi.
Qed.

End UniformFacts.

Section StrategyFacts.

Variable sc : Scenario.
Variable gauss : nat -> Q.
Variable unif : nat -> Q.
Variable kw : kwargs.

(** The plain uniform run leaves [initial_config] alone, places every
    vehicle on a candidate edge longer than a vehicle, and, when the
    perturbation is positive, keeps every offset inside its edge. *)
Lemma gen_even_plain_spec (fuel : nat) (N : Z) (h : heap)
    (sp : list (string * Q)) (sl : list Z) (h' : heap) :
  gen_even_plain sc gauss kw fuel N h = Ok ((sp, sl), h') ->
  h_config h' = h_config h /\
  Forall (fun q =>
            q.1 ∈ dist_edges sc (edges_distribution (h_config h)) /\
            (VEHICLE_LENGTH < edge_length sc q.1)%Q) sp /\
  ((0 < perturbation (h_config h))%Q -> Forall (within_edge sc) sp).
Proof.
  unfold gen_even_plain.
  destruct (_get_start_pos_util _ _ _ _) as [u | |] eqn:Hu;
    try discriminate.
  cbn [rbind].
  destruct (N =? 0)%Z eqn:HN.
  { intros [= <- <- <-]. repeat split; constructor. }
  destruct (place_loop _ _ _ _ _ _ _ _ _) as [[sp0 sl0] | |] eqn:Hloop;
    try discriminate.
  cbn [rbind].
  assert (Hplaced :
    Forall (fun q => q.1 ∈ u_available_edges u) sp0 /\
    List.length sp0 = Z.to_nat N).
  { destruct (Z.ltb_spec 0 N) as [Hpos | Hneg].
    - apply place_loop_spec in Hloop as [Hall Hlen];
        [| lia | reflexivity | constructor].
      simpl in Hall, Hlen. split; [exact Hall | lia].
    - apply Z.eqb_neq in HN.
      assert (Hstop : (0 <? N)%Z = false) by (apply Z.ltb_ge; lia).
      destruct fuel; cbn [place_loop] in Hloop; rewrite Hstop in Hloop;
        injection Hloop as <- <-; (split; [constructor |]);
        simpl; lia. }
  destruct Hplaced as [Hall Hlen].
  assert (Hcand : Forall (fun q =>
            q.1 ∈ dist_edges sc (edges_distribution (h_config h)) /\
            (VEHICLE_LENGTH < edge_length sc q.1)%Q) sp0).
  { eapply Forall_impl; [exact Hall |]. intros q Hq.
    exact (util_available _ _ _ _ _ _ Hu Hq). }
  destruct (Qle_bool (perturbation (h_config h)) 0) eqn:Hp; cbn [negb].
  - intros [= <- <- <-]. repeat split; [exact Hcand |].
    intros Hpos. apply Qle_bool_iff in Hp. lra.
  - destruct (perturb_loop _ _ _ _ _) as [sp1 | |] eqn:Hpert;
      try discriminate.
    cbn [rbind]. intros [= <- <- <-]. simpl. repeat split.
    + pose proof (perturb_loop_names _ _ _ _ _ _ Hpert) as Hnames.
      apply Forall_forall. intros q Hq.
      assert (Hq1 : q.1 ∈ map fst sp0).
      { rewrite <- Hnames. apply list_elem_of_fmap. now exists q. }
      apply list_elem_of_fmap in Hq1 as (q0 & -> & Hq0).
      exact (proj1 (Forall_forall _ _) Hcand q0 Hq0).
    + intros _.
      apply (perturb_loop_within sc gauss (Z.to_nat N) (h_gauss h)
               0%nat sp0 sp1);
        [simpl; lia | | constructor | exact Hpert].
      eapply Forall_impl; [exact Hcand |]. intros q [_ Hq].
      unfold VEHICLE_LENGTH in Hq. lra.
Qed.

(** The expansion loop hands every property of the strategy's placements
    on to the whole result.  [B] holds of the configuration throughout,
    [P] of the configuration narrowed to one key. *)
Lemma expand_keys_Forall
    (strategy : Z -> heap -> result (placements * heap))
    (B P : InitialConfig -> Prop) (good : string * Q -> Prop)
    (items : list (string * dist_value)) :
  (forall N h sp sl h',
     P (h_config h) -> strategy N h = Ok ((sp, sl), h') ->
     Forall good sp /\ h_config h' = h_config h) ->
  (forall c d, B c -> B (set_edges_distribution c d)) ->
  (forall key v c, (key, v) ∈ items -> B c ->
     P (set_edges_distribution c (DistList [key]))) ->
  forall acc h acc' h',
    expand_keys strategy items acc h = Ok (acc', h') ->
    B (h_config h) -> Forall good acc.1 -> Forall good acc'.1.
Proof.
  intros Hstrat HB. induction items as [| [key v] r IH];
    intros HP acc h acc' h'; cbn [expand_keys].
  - now intros [= <- <-].
  - set (h1 := with_config h _).
    set (h2 := match v with CountInt _ => h1 | CountPairs _ => _ end).
    assert (Hcfg : h_config h2 =
                   set_edges_distribution (h_config h) (DistList [key]))
      by (subst h2 h1; destruct v; reflexivity).
    destruct (strategy (key_count v) h2) as [[[pos lane] h3] | |] eqn:Hs;
      try discriminate.
    cbn [rbind]. intros Hrest Hb Hacc.
    assert (Hnarrow : P (h_config h2)).
    { rewrite Hcfg. apply (HP key v); [left | exact Hb]. }
    destruct (Hstrat _ _ _ _ _ Hnarrow Hs) as [Hgood Hkeep].
    eapply IH; [| exact Hrest | |].
    + intros key' v' c Hin. apply (HP key' v'). now right.
    + rewrite Hkeep, Hcfg. now apply HB.
    + simpl. apply Forall_app. now split.
Qed.



Lemma gen_even_plain_config (fuel : nat) (N : Z) (h : heap) p h' :
  gen_even_plain sc gauss kw fuel N h = Ok (p, h') ->
  h_config h' = h_config h.
Proof.
  destruct p as [sp sl]. intros H.
  now apply gen_even_plain_spec in H as [H _].
Qed.

End StrategyFacts.

(** ** The uniform strategy and internal junctions *)




(** ** The perturbation *)

(** C9: with a positive perturbation, every offset returned by the uniform
    strategy lies in [[0, edge_length(edge)]] of its edge, whatever the
    Gaussian draws are. *)
Theorem C9_perturbed_offset_within_edge
    (sc : Scenario) (gauss : nat -> Q) (kw : kwargs) (fuel : nat) (N : Z)
    (h : heap) (sp : list (string * Q)) (sl : list Z) (h' : heap) :
  (0 < perturbation (h_config h))%Q ->
  gen_even_start_pos sc gauss kw fuel N h = Ok ((sp, sl), h') ->
  Forall (fun q => (0 <= q.2)%Q /\ (q.2 <= edge_length sc q.1)%Q) sp.
Proof.
  intros Hpos. unfold gen_even_start_pos.
  assert (Hplain : forall N0 h0 sp0 sl0 h0',
    (0 < perturbation (h_config h0))%Q ->
    gen_even_plain sc gauss kw fuel N0 h0 = Ok ((sp0, sl0), h0') ->
    Forall (within_edge sc) sp0 /\ h_config h0' = h_config h0).
  { intros N0 h0 sp0 sl0 h0' Hp Hrun.
    apply gen_even_plain_spec in Hrun as (Hkeep & _ & Hin).
    split; [now apply Hin | exact Hkeep]. }
  destruct (edges_distribution (h_config h)) as [| l | d] eqn:Hd.
  - intros Hrun. now apply (Hplain N h sp sl h').
  - intros Hrun. now apply (Hplain N h sp sl h').
  - destruct (num_vehicles_e d) as [total | |]; try discriminate.
    cbn [rbind]. destruct (negb (N =? total)%Z); [discriminate |].
    intros Hrun.
    apply (expand_keys_Forall (gen_even_plain sc gauss kw fuel)
             (fun c => (0 < perturbation c)%Q)
             (fun c => (0 < perturbation c)%Q)
             (within_edge sc) d Hplain) in Hrun;
      try exact Hpos; try constructor.
    + exact Hrun.
    + intros c d' Hc. exact Hc.
    + intros key v c _ Hc. exact Hc.
Qed.

Lemma C9_perturbed_offset_within_edge_witness :
  exists sp sl h',
    gen_even_start_pos short_edge wild_draws ∅ 10 3
      (fresh_heap (MkInitialConfig false "uniform" 0 10 0 0 1 DistAll))
    = Ok ((sp, sl), h') /\
    sp = [("e"%string, 20%Q); ("e"%string, 0%Q); ("e"%string, 20%Q)] /\
    Forall (fun q => (0 <= q.2)%Q /\ (q.2 <= edge_length short_edge q.1)%Q) sp.
Proof.
  eexists. eexists. eexists.
  assert (Hrun : gen_even_start_pos short_edge wild_draws ∅ 10 3
      (fresh_heap (MkInitialConfig false "uniform" 0 10 0 0 1 DistAll))
    = Ok (([("e"%string, 20%Q); ("e"%string, 0%Q); ("e"%string, 20%Q)],
           [0%Z; 0%Z; 0%Z]),
          MkHeap (MkInitialConfig false "uniform" 0 10 0 0 1 DistAll)
                 [] 3 0))
    by (vm_compute; reflexivity).
  split; [exact Hrun |]. split; [reflexivity |].
  refine (C9_perturbed_offset_within_edge short_edge wild_draws ∅ 10 3
            _ _ _ _ _ Hrun).
  reflexivity.
Defined.

(** ** Mapping-form distributions *)

(** The uniform strategy does check the total: a total that cannot be
    computed, or that differs from [num_vehicles], makes the call raise. *)
Lemma gen_even_mismatch_raises
    (sc : Scenario) (gauss : nat -> Q) (kw : kwargs) (fuel : nat) (N : Z)
    (h : heap) (d : list (string * dist_value)) :
  edges_distribution (h_config h) = DistDict d ->
  num_vehicles_e d <> Ok N ->
  raises (gen_even_start_pos sc gauss kw fuel N h).
Proof.
  intros Hd Hne. unfold gen_even_start_pos. rewrite Hd.
  assert (Hno_timeout : forall f acc l,
            sum_results f acc l <> Timeout
            \/ exists v, f v = Timeout).
  { intros f acc l. revert acc. induction l as [| kv r IH]; intros acc; simpl.
    - now left.
    - destruct (f kv.2) as [n | e |] eqn:Hf; cbn [rbind].
      + apply IH.
      + now left.
      + right. now exists kv.2. }
  destruct (num_vehicles_e d) as [total | e |] eqn:Ht; cbn [rbind].
  - destruct (N =? total)%Z eqn:Heq; cbn [negb]; [| now exists AssertionError].
    apply Z.eqb_eq in Heq. congruence.
  - now exists e.
  - exfalso. unfold num_vehicles_e in Ht.
    destruct d as [| [k [n | l]] r]; [discriminate | |].
    + destruct (Hno_timeout as_int 0%Z ((k, CountInt n) :: r))
        as [Hc | [[?|?] Hv]]; [contradiction | discriminate..].
    + destruct (Hno_timeout as_pairs_total 0%Z ((k, CountPairs l) :: r))
        as [Hc | [[?|?] Hv]]; [contradiction | discriminate..].
Qed.

(** C2, the code at the failing input: the mapping asks for 3 + 2 vehicles
    and 4 are announced.  The uniform strategy raises; the random strategy,
    whose check is commented out, returns five placements. *)
Theorem C2_random_strategy_accepts_mismatch :
  sumZ [3%Z; 2%Z] <> 4%Z /\
  generate_starting_positions ring (fun _ => 0%Q) half_draws ∅ 10 4 (Some 4%Z)
    (fresh_heap (plain_config three_and_two)) = Raise AssertionError /\
  exists sp sl h',
    generate_starting_positions ring (fun _ => 0%Q) half_draws ∅ 10 4
      (Some 4%Z) (fresh_heap (random_config three_and_two))
    = Ok ((sp, sl), h') /\
    List.length sp = 5%nat.
Proof.
  split; [discriminate |]. split; [vm_compute; reflexivity |].
  eexists. eexists. eexists. split; [vm_compute; reflexivity |].
  reflexivity.
Qed.




(** ** The uniform strategy on a single edge *)

Lemma py_mod_small (a b : Q) :
  (0 <= a)%Q -> (a < b)%Q -> exists r, py_mod a b = Ok r /\ (r == a)%Q.
Proof.
  intros Ha Hb. unfold py_mod.
  destruct (Qeq_bool b 0) eqn:Hz.
  { apply Qeq_bool_iff in Hz. lra. }
  eexists. split; [reflexivity |].
  assert (Hfl : Qfloor (a / b) = 0%Z).
  { assert (H0 : (0 <= a / b)%Q).
    { apply Qle_shift_div_l; lra. }
    assert (H1 : (a / b < 1)%Q).
    { apply Qlt_shift_div_r; lra. }
    pose proof (Qfloor_le (a / b)) as Hle.
    assert (Hlow : (0 <= Qfloor (a / b))%Z).
    { change 0%Z with (Qfloor 0). now apply Qfloor_resp_le. }
    assert (Hhigh : (Qfloor (a / b) < 1)%Z).
    { rewrite Zlt_Qlt. eapply Qle_lt_trans; [exact Hle | exact H1]. }
    lia. }
  rewrite Hfl. unfold Qof. simpl. ring.
Qed.

Section SingleEdge.

Variables (e : string) (L g speed : Q) (N lanes_req : Z) (links : bool).

Hypothesis e_road : first_is_colon e = Ok false.
Hypothesis g_nonneg : (0 <= g)%Q.
Hypothesis e_eligible : (g + VEHICLE_LENGTH < L)%Q.
Hypothesis N_pos : (0 < N)%Z.
Hypothesis N_fits : (Qof N * (VEHICLE_LENGTH + g) <= L)%Q.

Local Abbreviation spec1 := (single_spec e L speed links).
Local Abbreviation sc1 := (single_scenario e L speed).
Local Abbreviation cfg1 := (single_config g lanes_req).
Local Abbreviation stride := (claimed_stride L g N).

Lemma single_init : Scenario_init spec1 = Ok sc1.
Proof.
  unfold Scenario_init, single_spec. simpl. rewrite e_road. simpl.
  destruct links; reflexivity.
Qed.

Lemma single_lookup :
  _edges sc1 !! e = Some (EdgeData L 1 speed).
Proof. simpl. unfold dict. simpl. apply lookup_insert_eq. Qed.

Lemma single_edge_length : edge_length sc1 e = L.
Proof. unfold edge_length, table_length. now rewrite single_lookup. Qed.

Lemma single_num_lanes : num_lanes sc1 e = 1%Z.
Proof. unfold num_lanes, table_lanes. now rewrite single_lookup. Qed.

Lemma single_net_length : (net_length sc1 == L)%Q.
Proof.
  change (net_length sc1)
    with (0 + edge_length sc1 e)%Q.
  rewrite single_edge_length. ring.
Qed.

Lemma single_get_edge (x : Q) :
  (0 <= x)%Q -> get_edge sc1 x = Some (e, (x - 0)%Q).
Proof.
  intros Hx. unfold get_edge. simpl.
  apply Qle_bool_iff in Hx. now rewrite Hx.
Qed.

Lemma single_not_internal : is_internal sc1 e = false.
Proof. reflexivity. Qed.

Lemma L_pos : (0 < L)%Q.
Proof. unfold VEHICLE_LENGTH in e_eligible. lra. Qed.

Lemma single_util :
  exists u,
    _get_start_pos_util sc1 cfg1 N ∅ = Ok u /\
    u_x0 u = 0%Q /\
    (u_min_gap u == g)%Q /\
    u_lanes_distribution u = 1%Z /\
    u_available_edges u = [e] /\
    (u_available_length u == L - Qof N * (VEHICLE_LENGTH + g))%Q.
Proof.
  assert (Hmg : (py_max 0 g == g)%Q).
  { unfold py_max. destruct (Qlt_le_dec 0 g); lra. }
  assert (Hld : clamp_lanes cfg1 1 = 1%Z).
  { unfold clamp_lanes. simpl.
    destruct (Z.ltb_spec 1 lanes_req); [reflexivity |].
    destruct (Z.ltb_spec lanes_req 1); [reflexivity | lia]. }
  assert (Hlong : long_enough sc1 (py_max 0 g) e = true).
  { apply long_enough_true. rewrite single_edge_length, Hmg. exact e_eligible. }
  unfold _get_start_pos_util.
  change (dist_edges sc1 (edges_distribution cfg1))
    with [e].
  change (min_gap cfg1) with g.
  cbn [map py_max_list]. rewrite single_num_lanes. cbn [rbind].
  rewrite Hld.
  rewrite (filter_cons_True
             (fun e0 => long_enough sc1 (py_max 0 g) e0 = true)
             e [] Hlong), filter_nil.
  cbn [map sumQ foldl].
  rewrite single_edge_length, single_num_lanes.
  change (resolve_bunching cfg1 ∅) with 0%Q.
  change (resolve_x0 cfg1 ∅) with 0%Q.
  match goal with
  | |- context [Qlt_le_dec ?a 0] =>
      assert (Ha : (a == L - Qof N * (VEHICLE_LENGTH + g))%Q);
      [| destruct (Qlt_le_dec a 0) as [Hneg | Hok]]
  end.
  - rewrite Hmg. change (Qof (1 `min` 1)) with 1%Q.
    change (Qof 1) with 1%Q. ring.
  - exfalso. lra.
  - eexists. split; [reflexivity |]. simpl. repeat split; assumption.
Qed.

Lemma single_py_mod (u : util_out) (inc x : Q) :
  py_mod (x + inc + VEHICLE_LENGTH + u_min_gap u) (net_length sc1)
  = Ok (next_x sc1 u inc x).
Proof.
  unfold py_mod.
  destruct (Qeq_bool (net_length sc1) 0) eqn:Hz; [| reflexivity].
  apply Qeq_bool_iff in Hz. rewrite single_net_length in Hz.
  pose proof L_pos. lra.
Qed.

Lemma place_loop_single (u : util_out) (inc : Q) :
  u_available_edges u = [e] ->
  u_lanes_distribution u = 1%Z ->
  forall (m fuel : nat) (cc : Z) (x : Q) (acc : placements),
    (m <= fuel)%nat ->
    Z.of_nat m = (N - cc)%Z ->
    Forall (Qle 0) (stride_positions sc1 u inc m x) ->
    place_loop sc1 fuel u false N x inc cc acc
    = Ok (acc.1 ++ map (fun y => (e, (y - 0)%Q))
                       (stride_positions sc1 u inc m x),
          acc.2 ++ replicate m 0%Z).
Proof.
  intros Hav Hld. induction m as [| m IH]; intros fuel cc x acc Hfuel Hm Hpos.
  - assert (Hstop : (cc <? N)%Z = false) by (apply Z.ltb_ge; lia).
    destruct fuel; cbn [place_loop]; rewrite Hstop; cbn [negb];
      simpl; rewrite !app_nil_r; now destruct acc.
  - destruct fuel as [| fuel]; [lia |].
    assert (Hgo : (cc <? N)%Z = true) by (apply Z.ltb_lt; lia).
    cbn [place_loop]. rewrite Hgo. cbn [negb].
    cbn [stride_positions] in Hpos |- *.
    apply Forall_cons in Hpos as [Hx Hpos].
    rewrite (single_get_edge x Hx).
    cbn [skip_internal fst]. rewrite single_not_internal. cbn [negb rbind].
    cbn [seek_available fst]. rewrite Hav.
    rewrite bool_decide_eq_true_2 by (now left). cbn [rbind andb].
    cbn [fst]. rewrite single_num_lanes, Hld.
    change (py_range (1 `min` 1)) with [0%Z].
    cbn [fill_lanes].
    rewrite single_py_mod.
    destruct (cc + 1 =? N)%Z; cbn [rbind];
      (rewrite IH; [| lia | lia | exact Hpos]);
      cbn [fst snd map]; rewrite <- !app_assoc; reflexivity.
Qed.

Lemma QofN_pos : (0 < Qof N)%Q.
Proof. unfold Qof. change 0%Q with (inject_Z 0). now rewrite <- Zlt_Qlt. Qed.

Lemma claimed_stride_eq : (stride == L / Qof N)%Q.
Proof. unfold claimed_stride. pose proof QofN_pos. field. lra. Qed.

Lemma claimed_stride_pos : (0 < stride)%Q.
Proof.
  rewrite claimed_stride_eq. apply Qlt_shift_div_l; [apply QofN_pos |].
  pose proof L_pos. lra.
Qed.

Lemma stride_positions_arith (u : util_out) (inc : Q) :
  (inc + VEHICLE_LENGTH + u_min_gap u == stride)%Q ->
  forall (m : nat) (k : Z) (x : Q),
    (x == Qof k * stride)%Q ->
    (0 <= k)%Z -> (k + Z.of_nat m <= N)%Z ->
    Forall2 Qeq (stride_positions sc1 u inc m x)
      (map (fun i => (Qof (k + Z.of_nat i) * stride)%Q) (seq 0 m)).
Proof.
  intros Hstride. induction m as [| m IH]; intros k x Hx Hk Hm.
  - constructor.
  - cbn [stride_positions seq map]. constructor.
    + now rewrite Z.add_0_r.
    + rewrite <- seq_shift, map_map.
      rewrite (map_ext _ (fun i => (Qof (k + 1 + Z.of_nat i)
                                    * stride)%Q))
        by (intros i; do 2 f_equal; lia).
      destruct m as [| m']; [constructor |].
      assert (Hnext : (next_x sc1 u inc x
                       == Qof (k + 1) * stride)%Q).
      { assert (Ha : (x + inc + VEHICLE_LENGTH + u_min_gap u
                      == Qof (k + 1) * stride)%Q).
        { unfold Qof. rewrite inject_Z_plus. fold (Qof k). rewrite Hx.
          rewrite <- Hstride. change (inject_Z 1) with 1%Q. ring. }
        pose proof claimed_stride_pos as Hs.
        pose proof QofN_pos as HN.
        assert (Hk0 : (0 <= Qof (k + 1))%Q).
        { unfold Qof. change 0%Q with (inject_Z 0). rewrite <- Zle_Qle. lia. }
        assert (Hk1 : (Qof (k + 1) + 1 <= Qof N)%Q).
        { unfold Qof. change 1%Q with (inject_Z 1).
          rewrite <- inject_Z_plus, <- Zle_Qle. lia. }
        destruct (py_mod_small
                    (x + inc + VEHICLE_LENGTH + u_min_gap u)
                    (net_length sc1)) as (r & Hr & Hreq).
        - rewrite Ha. apply Qmult_le_0_compat; lra.
        - rewrite Ha, single_net_length.
          assert (HL : (Qof N * stride == L)%Q).
          { rewrite claimed_stride_eq. field. lra. }
          eapply Qlt_le_trans;
            [apply (Qmult_lt_compat_r (Qof (k + 1)) (Qof N)); lra |].
          rewrite HL. apply Qle_refl.
        - rewrite single_py_mod in Hr. injection Hr as <-.
          now rewrite Hreq. }
      apply (IH (k + 1)%Z _ Hnext); lia.
Qed.

(** C7: on a network of one eligible one-lane edge of length [L], with
    [N >= 1] vehicles that fit, minimum gap [g], no bunching, [x0 = 0] and
    no perturbation, the uniform strategy returns (given a loop bound of at
    least [N]) [N] start positions on that edge whose consecutive offsets
    are strictly increasing and differ by
    [(L - N * (5 + g)) / N + 5 + g]. *)
Theorem C7_uniform_single_edge_stride (gauss : nat -> Q) (fuel : nat) :
  (Z.to_nat N <= fuel)%nat ->
  Scenario_init (single_spec e L speed links)
    = Ok (single_scenario e L speed) /\
  exists sp sl h',
    gen_even_start_pos (single_scenario e L speed) gauss ∅ fuel N
      (fresh_heap (single_config g lanes_req)) = Ok ((sp, sl), h') /\
    List.length sp = Z.to_nat N /\
    Forall (fun q => q.1 = e) sp /\
    forall (i : nat) (p1 p2 : Q),
      map snd sp !! i = Some p1 ->
      map snd sp !! S i = Some p2 ->
      (p1 < p2)%Q /\
      (p2 - p1 ==
       (L - Qof N * (VEHICLE_LENGTH + g)) / Qof N + VEHICLE_LENGTH + g)%Q.
Proof.
  intros Hfuel. split; [apply single_init |].
  destruct single_util as (u & Hu & Hx0 & Hmg & Hld & Hav & Hal).
  set (n := Z.to_nat N) in *.
  set (inc := (u_available_length u / Qof N)%Q).
  assert (Hstride : (inc + VEHICLE_LENGTH + u_min_gap u == stride)%Q).
  { unfold inc, claimed_stride. now rewrite Hal, Hmg. }
  assert (Harith : Forall2 Qeq (stride_positions sc1 u inc n 0)
            (map (fun i => (Qof (0 + Z.of_nat i) * stride)%Q)
                 (seq 0 n))).
  { apply (stride_positions_arith u inc Hstride n 0%Z 0%Q);
      [unfold Qof; simpl; ring | lia | lia]. }
  assert (Hideal : forall i y, stride_positions sc1 u inc n 0 !! i = Some y ->
            (y == Qof (Z.of_nat i) * stride)%Q).
  { intros i y Hy.
    assert (Hi : (i < n)%nat).
    { apply lookup_lt_Some in Hy.
      rewrite (Forall2_length _ _ _ Harith), length_map, length_seq in Hy.
      exact Hy. }
    eapply (Forall2_lookup_lr _ _ _ i _ _ Harith Hy).
    rewrite list_lookup_fmap, lookup_seq_lt by exact Hi. reflexivity. }
  pose proof claimed_stride_pos as Hs.
  assert (Hnonneg : Forall (Qle 0) (stride_positions sc1 u inc n 0)).
  { apply Forall_lookup. intros i y Hy. rewrite (Hideal i y Hy).
    apply Qmult_le_0_compat; [| lra].
    unfold Qof. change 0%Q with (inject_Z 0). rewrite <- Zle_Qle. lia. }
  pose proof (place_loop_single u inc Hav Hld n fuel 0%Z 0%Q ([], []) Hfuel
                ltac:(lia) Hnonneg) as Hloop.
  cbn [fst snd app] in Hloop.
  eexists. eexists. eexists. split.
  { unfold gen_even_start_pos.
    change (edges_distribution (h_config (fresh_heap cfg1)))
      with DistAll.
    unfold gen_even_plain.
    change (h_config (fresh_heap cfg1)) with cfg1.
    rewrite Hu. cbn [rbind].
    replace (N =? 0)%Z with false by (symmetry; apply Z.eqb_neq; lia).
    change (get_edge_list sc1) with [e].
    cbn [map lanes_differ existsb].
    rewrite Hx0. fold inc. rewrite Hloop. cbn [rbind].
    reflexivity. }
  assert (Hlen : List.length (stride_positions sc1 u inc n 0) = n).
  { now rewrite (Forall2_length _ _ _ Harith), length_map, length_seq. }
  split; [now rewrite length_map |]. split.
  { apply Forall_forall. intros q Hq.
    apply list_elem_of_fmap in Hq as (y & -> & _). reflexivity. }
  intros i p1 p2 H1 H2.
  rewrite map_map in H1, H2. cbn [snd] in H1, H2.
  rewrite list_lookup_fmap in H1, H2.
  destruct (stride_positions sc1 u inc n 0 !! i) as [y1 |] eqn:Hy1;
    [| discriminate].
  destruct (stride_positions sc1 u inc n 0 !! S i) as [y2 |] eqn:Hy2;
    [| discriminate].
  injection H1 as <-. injection H2 as <-.
  apply Hideal in Hy1, Hy2.
  assert (Hsucc : (Qof (Z.of_nat (S i)) == Qof (Z.of_nat i) + 1)%Q).
  { unfold Qof. rewrite Nat2Z.inj_succ, <- Z.add_1_r, inject_Z_plus.
    reflexivity. }
  rewrite Hsucc in Hy2.
  fold stride. split.
  - rewrite Hy1, Hy2. lra.
  - rewrite Hy1, Hy2. ring.
Qed.

End SingleEdge.

Lemma C7_uniform_single_edge_stride_witness :
  exists sp sl h',
    gen_even_start_pos (single_scenario "e" 100 30) (fun _ => 0%Q) ∅ 4 4
      (fresh_heap (single_config 0 1)) = Ok ((sp, sl), h') /\
    List.length sp = 4%nat /\
    Forall (fun q => q.1 = "e"%string) sp /\
    forall (i : nat) (p1 p2 : Q),
      map snd sp !! i = Some p1 ->
      map snd sp !! S i = Some p2 ->
      (p1 < p2)%Q /\
      (p2 - p1 ==
       (100 - Qof 4 * (VEHICLE_LENGTH + 0)) / Qof 4 + VEHICLE_LENGTH + 0)%Q.
Proof.
  apply (C7_uniform_single_edge_stride "e" 100 0 30 4 1 true).
  - reflexivity.
  - vm_compute. discriminate.
  - vm_compute. reflexivity.
  - reflexivity.
  - vm_compute. discriminate.
  - simpl. lia.
Defined.

(** * Further properties of the code *)

(** ** The frame is sorted *)

Lemma by_pos_trans (a b c : string * Q) :
  by_pos a b -> by_pos b c -> by_pos a c.
Proof. unfold by_pos. apply Qle_trans. Qed.

Lemma insert_by_pos_sorted (a : string * Q) (l : list (string * Q)) :
  StronglySorted by_pos l -> StronglySorted by_pos (insert_by_pos a l).
Proof.
  induction l as [| b r IH]; intros Hs; simpl.
  - repeat constructor.
  - apply StronglySorted_inv in Hs as [Hr Hb].
    destruct (Qle_bool a.2 b.2) eqn:Hab.
    + apply Qle_bool_iff in Hab. constructor.
      * now constructor.
      * constructor; [exact Hab |].
        eapply Forall_impl; [exact Hb |].
        intros c Hc. now apply (by_pos_trans a b c).
    + constructor; [now apply IH |].
      rewrite insert_by_pos_perm. constructor; [| exact Hb].
      unfold by_pos. apply Qlt_le_weak, Qnot_le_lt.
      intros Hle. apply Qle_bool_iff in Hle. congruence.
Qed.

Lemma sort_by_pos_sorted (l : list (string * Q)) :
  StronglySorted by_pos (sort_by_pos l).
Proof.
  induction l as [| a r IH]; simpl; [constructor |].
  now apply insert_by_pos_sorted.
Qed.

Lemma sort_by_pos_fixed (l : list (string * Q)) :
  StronglySorted by_pos l -> sort_by_pos l = l.
Proof.
  induction l as [| a r IH]; intros Hs; [reflexivity |].
  apply StronglySorted_inv in Hs as [Hr Ha].
  simpl. fold (sort_by_pos r). rewrite (IH Hr).
  destruct r as [| b r']; [reflexivity |]. simpl.
  apply Forall_cons in Ha as [Hab _].
  apply Qle_bool_iff in Hab. now rewrite Hab.
Qed.

Lemma Scenario_init_sorted (n : NetSpec) (sc : Scenario) :
  Scenario_init n = Ok sc -> StronglySorted by_pos (total_edgestarts sc).
Proof.
  unfold Scenario_init.
  destruct (filter_edge_ids _) as [edge_list | |]; try discriminate.
  simpl rbind.
  destruct (py_max_listQ _) as [top | |]; try discriminate.
  simpl rbind. intros [= <-]. simpl. apply sort_by_pos_sorted.
Qed.

(** X1: what [__init__] leaves in [total_edgestarts] is the declared edge
    starts (with the merged internal ones unless [no_internal_links]) sorted
    by start position, entries already in order keeping their places; with
    [no_internal_links] the attribute [edgestarts] is that same sorted list,
    otherwise it is left as declared. *)
Theorem X1_total_edgestarts_sorted (n : NetSpec) (sc : Scenario) :
  Scenario_init n = Ok sc ->
  let declared :=
    if no_internal_links n then specify_edge_starts n
    else specify_edge_starts n ++ internal_edgestarts sc in
  StronglySorted by_pos (total_edgestarts sc) /\
  total_edgestarts sc ≡ₚ declared /\
  (StronglySorted by_pos declared -> total_edgestarts sc = declared) /\
  edgestarts sc =
    (if no_internal_links n then total_edgestarts sc
     else specify_edge_starts n).
Proof.
  unfold Scenario_init.
  destruct (filter_edge_ids _) as [edge_list | |]; try discriminate.
  simpl rbind.
  destruct (py_max_listQ _) as [top | |]; try discriminate.
  simpl rbind. intros [= <-]. simpl.
  split; [apply sort_by_pos_sorted |].
  split; [apply sort_by_pos_perm |].
  split; [apply sort_by_pos_fixed | reflexivity].
Qed.

Lemma X1_total_edgestarts_sorted_witness :
  StronglySorted by_pos (total_edgestarts ring) /\
  total_edgestarts ring =
    [("a"%string, 0%Q); (":j"%string, 50%Q); ("b"%string, 60%Q)].
Proof.
  destruct (X1_total_edgestarts_sorted ring_spec ring ring_init)
    as (Hs & _ & _ & _).
  split; [exact Hs | reflexivity].
Defined.

(** ** [get_edge] *)

Lemma find_first {A} (P : A -> bool) (l : list A) (a : A) :
  find P l = Some a ->
  exists l1 l2, l = l1 ++ a :: l2 /\ P a = true /\
                Forall (fun b => P b = false) l1.
Proof.
  induction l as [| b r IH]; simpl; [discriminate |].
  destruct (P b) eqn:Hb.
  - intros [= <-]. exists [], r. repeat split; [exact Hb | constructor].
  - intros H. destruct (IH H) as (l1 & l2 & -> & Ha & Hl1).
    exists (b :: l1), l2. repeat split; [exact Ha | now constructor].
Qed.

(** X2: [get_edge] returns [None] exactly when [x] lies before every start
    of the table. *)
Theorem X2_get_edge_none_iff (sc : Scenario) (x : Q) :
  get_edge sc x = None <->
  forall e s, (e, s) ∈ total_edgestarts sc -> (x < s)%Q.
Proof.
  unfold get_edge. split.
  - destruct (find _ _) as [[e0 s0] |] eqn:Hf; [discriminate |].
    intros _ e s Hin.
    pose proof (find_none _ _ Hf (e, s)) as Hn. simpl in Hn.
    apply Qnot_le_lt. intros Hle. apply Qle_bool_iff in Hle.
    rewrite Hn in Hle; [discriminate |].
    apply -> in_rev. now apply list_elem_of_In.
  - intros Hall.
    destruct (find _ _) as [[e0 s0] |] eqn:Hf; [| reflexivity].
    apply find_some in Hf as [Hin Hle]. simpl in Hle.
    apply Qle_bool_iff in Hle.
    apply in_rev, list_elem_of_In in Hin.
    specialize (Hall _ _ Hin). lra.
Qed.

(** On a sorted table [get_edge] picks an entry of greatest start among
    those that start at or before [x]. *)
Lemma get_edge_greatest (sc : Scenario) (x : Q) (e : string) (p : Q) :
  StronglySorted by_pos (total_edgestarts sc) ->
  get_edge sc x = Some (e, p) ->
  exists s,
    (e, s) ∈ total_edgestarts sc /\ p = (x - s)%Q /\ (s <= x)%Q /\
    forall e' s', (e', s') ∈ total_edgestarts sc -> (s' <= x)%Q ->
                  (s' <= s)%Q.
Proof.
  intros Hsorted. unfold get_edge.
  destruct (find _ _) as [[e0 s0] |] eqn:Hf; [| discriminate].
  intros [= <- <-].
  destruct (find_first _ _ _ Hf) as (l1 & l2 & Hrev & Hle & Hl1).
  simpl in Hle. apply Qle_bool_iff in Hle.
  assert (Htot : total_edgestarts sc = rev l2 ++ (e0, s0) :: rev l1).
  { rewrite <- (rev_involutive (total_edgestarts sc)), Hrev, rev_app_distr.
    simpl. now rewrite <- app_assoc. }
  exists s0. repeat split; [| exact Hle |].
  - rewrite Htot. apply elem_of_app. right. left.
  - intros e' s' Hin Hs'. rewrite Htot in Hin, Hsorted.
    apply elem_of_app in Hin as [Hin | Hin].
    + apply (StronglySorted_app_1_elem_of _ _ _ (e', s') (e0, s0) Hsorted Hin).
      left.
    + apply elem_of_cons in Hin as [[= -> ->] | Hin]; [apply Qle_refl |].
      exfalso. apply list_elem_of_In, in_rev, list_elem_of_In in Hin.
      pose proof (proj1 (Forall_forall _ _) Hl1 _ Hin) as Hno. simpl in Hno.
      apply Qle_bool_iff in Hs'. congruence.
Qed.

(** X3: on the frame [__init__] builds, [get_edge x] returns an entry that
    starts at or before [x], with a non-negative offset [x - start], and no
    entry of the table starts between that start and [x]. *)
Theorem X3_get_edge_locates (n : NetSpec) (sc : Scenario) (x : Q)
    (e : string) (p : Q) :
  Scenario_init n = Ok sc ->
  get_edge sc x = Some (e, p) ->
  (0 <= p)%Q /\
  exists s,
    (e, s) ∈ total_edgestarts sc /\ (p == x - s)%Q /\
    forall e' s', (e', s') ∈ total_edgestarts sc ->
                  (s' <= s)%Q \/ (x < s')%Q.
Proof.
  intros Hinit Hge.
  pose proof (Scenario_init_sorted n sc Hinit) as Hsorted.
  destruct (get_edge_greatest sc x e p Hsorted Hge)
    as (s & Hin & -> & Hle & Hmax).
  split; [lra |]. exists s.
  split; [exact Hin |]. split; [reflexivity |].
  intros e' s' Hin'. destruct (Qlt_le_dec x s') as [Hlt | Hle'].
  - now right.
  - left. now apply (Hmax e').
Qed.

Lemma X3_get_edge_locates_witness :
  get_edge ring 55 = Some (":j"%string, 5%Q) /\ (0 <= 5)%Q.
Proof.
  assert (H : get_edge ring 55 = Some (":j"%string, 5%Q)) by reflexivity.
  split; [exact H |].
  exact (proj1 (X3_get_edge_locates ring_spec ring 55 _ _ ring_init H)).
Defined.

(** ** From an edge and an offset to the position and back *)

Lemma get_x_in_frame (n : NetSpec) (sc : Scenario) (e : string) (s p : Q) :
  Scenario_init n = Ok sc ->
  well_formed_frame n sc ->
  (e, s) ∈ total_edgestarts sc ->
  get_x sc e p = Ok (s + p)%Q.
Proof.
  intros Hinit (Hnd & Hne & Hroad) Hin.
  destruct (Scenario_init_tables n sc Hinit)
    as (Hint & Hidict & Htdict & Hperm).
  assert (Htot : total_edgestarts_dict sc !! e = Some s).
  { rewrite Htdict. now apply dict_lookup_NoDup. }
  assert (Hname : e <> EmptyString).
  { apply Hne. apply list_elem_of_fmap. now exists (e, s). }
  unfold get_x. destruct e as [| c r]; [congruence |].
  destruct (is_colon c) eqn:Hc; [| now rewrite Htot].
  assert (Hnot_road : (String c r, s) ∉ specify_edge_starts n).
  { intros Hes.
    assert (Hf : first_is_colon (String c r) = Ok false).
    { apply Hroad. apply list_elem_of_fmap. now exists (String c r, s). }
    simpl in Hf. congruence. }
  rewrite Hperm in Hin, Hnd.
  destruct (no_internal_links n); [contradiction |].
  apply elem_of_app in Hin as [Hin | Hin]; [contradiction |].
  rewrite map_app in Hnd. apply NoDup_app in Hnd as (_ & _ & Hnd).
  rewrite Hidict. now rewrite (dict_lookup_NoDup _ _ _ Hnd Hin).
Qed.

(** X4: on a well-formed frame built by [__init__], an entry [(e, s)] and an
    offset [p >= 0] such that every entry of another identifier starts before
    [s] or after [s + p] are given back by [get_edge] applied to the position
    [get_x] returns. *)
Theorem X4_get_edge_get_x_roundtrip (n : NetSpec) (sc : Scenario)
    (e : string) (s p : Q) :
  Scenario_init n = Ok sc ->
  well_formed_frame n sc ->
  (e, s) ∈ total_edgestarts sc ->
  (0 <= p)%Q ->
  (forall e' s', (e', s') ∈ total_edgestarts sc ->
     e' = e \/ (s' < s)%Q \/ (s + p < s')%Q) ->
  exists y p',
    get_x sc e p = Ok y /\
    get_edge sc y = Some (e, p') /\
    (p' == p)%Q.
Proof.
  intros Hinit Hwf Hin Hp Hsep.
  exists (s + p)%Q.
  rewrite (get_x_in_frame n sc e s p Hinit Hwf Hin).
  destruct (get_edge_is_Some sc (s + p) e s Hin) as (e' & p' & Hge); [lra |].
  pose proof (Scenario_init_sorted n sc Hinit) as Hsorted.
  destruct (get_edge_greatest sc _ e' p' Hsorted Hge)
    as (s' & Hin' & -> & Hle & Hmax).
  pose proof (Hmax e s Hin ltac:(lra)) as Hge_s.
  destruct (Hsep e' s' Hin') as [-> | [Hlt | Hgt]]; [| lra | lra].
  assert (Hss : s' = s).
  { destruct Hwf as (Hnd & _).
    pose proof (dict_lookup_NoDup _ _ _ Hnd Hin) as H1.
    pose proof (dict_lookup_NoDup _ _ _ Hnd Hin') as H2.
    congruence. }
  subst s'. exists (s + p - s)%Q.
  split; [reflexivity |]. split; [exact Hge | ring].
Qed.

Lemma ring_frame : well_formed_frame ring_spec ring.
Proof.
  split; [| split].
  - apply (bool_decide_unpack _). vm_compute. reflexivity.
  - apply Forall_forall. repeat constructor; discriminate.
  - apply Forall_forall. repeat constructor.
Qed.

Lemma X4_get_edge_get_x_roundtrip_witness :
  exists y p',
    get_x ring ":j"%string 5 = Ok y /\
    get_edge ring y = Some (":j"%string, p') /\
    (p' == 5)%Q.
Proof.
  apply (X4_get_edge_get_x_roundtrip ring_spec ring ":j"%string 50 5
           ring_init ring_frame).
  - right. left.
  - vm_compute. discriminate.
  - intros e' s' Hin.
    change ((fun q : string * Q =>
               q.1 = ":j"%string \/ (q.2 < 50)%Q \/ (50 + 5 < q.2)%Q)
              (e', s')).
    revert Hin. apply Forall_forall.
    change (total_edgestarts ring)
      with [("a"%string, 0%Q); (":j"%string, 50%Q); ("b"%string, 60%Q)].
    apply Forall_cons. split; [right; left; reflexivity |].
    apply Forall_cons. split; [left; reflexivity |].
    apply Forall_cons. split; [right; right; reflexivity |].
    apply Forall_nil_2.
Defined.

(** ** What [__init__] accepts *)




Lemma dict_lookup_is_Some {V} (l : list (string * V)) (k : string) :
  k ∈ map fst l -> is_Some (dict l !! k).
Proof.
  induction l as [| kv l IH] using rev_ind; intros Hin; [inversion Hin |].
  rewrite dict_snoc. rewrite map_app in Hin.
  destruct (decide (kv.1 = k)) as [<- | Hne].
  - rewrite lookup_insert_eq. eauto.
  - rewrite lookup_insert_ne by exact Hne. apply IH.
    apply elem_of_app in Hin as [Hin | Hin]; [exact Hin |].
    simpl in Hin. apply list_elem_of_singleton in Hin. congruence.
Qed.



(** ** [_get_start_pos_util]: what it returns *)

Lemma py_max_list_spec (l : list Z) (m : Z) :
  py_max_list l = Ok m -> m ∈ l /\ Forall (fun x => (x <= m)%Z) l.
Proof.
  revert m. induction l as [| a r IH]; intros m; [discriminate |].
  destruct r as [| b r'].
  - intros [= <-]. split; [left | repeat constructor; lia].
  - change (py_max_list (a :: b :: r'))
      with (let? m0 := py_max_list (b :: r') in
            Ok (if (a <? m0)%Z then m0 else a)).
    destruct (py_max_list (b :: r')) as [m0 | |]; try discriminate.
    simpl rbind. destruct (IH m0 eq_refl) as [Hin Hall].
    destruct (Z.ltb_spec a m0); intros [= <-].
    + split; [now right |]. constructor; [lia | exact Hall].
    + split; [left |]. constructor; [lia |].
      eapply Forall_impl; [exact Hall |]. simpl. intros; lia.
Qed.

(** X6: when every candidate edge has at least one lane, the
    [lanes_distribution] that [_get_start_pos_util] returns lies between 1
    and the largest lane count of a candidate edge: a request below 1 gives
    1, a request above that count gives that count, any other request is
    kept. *)
Theorem X6_lanes_distribution_clamped
    (sc : Scenario) (c : InitialConfig) (N : Z) (kw : kwargs) (u : util_out) :
  _get_start_pos_util sc c N kw = Ok u ->
  (forall e, e ∈ dist_edges sc (edges_distribution c) ->
     (1 <= num_lanes sc e)%Z) ->
  exists max_lane,
    (exists e, e ∈ dist_edges sc (edges_distribution c) /\
               num_lanes sc e = max_lane) /\
    (forall e, e ∈ dist_edges sc (edges_distribution c) ->
       (num_lanes sc e <= max_lane)%Z) /\
    (1 <= u_lanes_distribution u <= max_lane)%Z /\
    ((lanes_distribution c < 1)%Z -> u_lanes_distribution u = 1%Z) /\
    ((max_lane < lanes_distribution c)%Z ->
       u_lanes_distribution u = max_lane) /\
    ((1 <= lanes_distribution c <= max_lane)%Z ->
       u_lanes_distribution u = lanes_distribution c).
Proof.
  intros Hu Hlanes. unfold _get_start_pos_util in Hu.
  destruct (py_max_list _) as [max_lane | |] eqn:Hmax; try discriminate.
  simpl rbind in Hu. destruct (Qlt_le_dec _ 0); [discriminate |].
  injection Hu as <-. simpl.
  destruct (py_max_list_spec _ _ Hmax) as [Hin Hall].
  apply list_elem_of_fmap in Hin as (e0 & He0 & Hin0).
  exists max_lane. split; [exists e0; now split |]. split.
  { intros e He. apply (proj1 (Forall_forall _ _) Hall).
    apply list_elem_of_fmap. now exists e. }
  pose proof (Hlanes e0 Hin0) as H1. rewrite <- He0 in H1.
  unfold clamp_lanes.
  destruct (Z.ltb_spec max_lane (lanes_distribution c));
    destruct (Z.ltb_spec (lanes_distribution c) 1);
    repeat split; intros; lia.
Qed.

Lemma X6_lanes_distribution_clamped_witness :
  exists u,
    _get_start_pos_util ring
      (MkInitialConfig false "uniform" 0 0 0 0 7 DistAll) 4 ∅ = Ok u /\
    (1 <= u_lanes_distribution u <= 1)%Z.
Proof.
  destruct (_get_start_pos_util ring
              (MkInitialConfig false "uniform" 0 0 0 0 7 DistAll) 4 ∅)
    as [u | e |] eqn:Hu; [| vm_compute in Hu; discriminate Hu ..].
  exists u. split; [reflexivity |].
  destruct (X6_lanes_distribution_clamped ring _ 4 ∅ u Hu)
    as (m & (e & He & Hm) & _ & H & _).
  - apply Forall_forall.
    change (Forall (fun e => (1 <= num_lanes ring e)%Z)
                   ["a"%string; "b"%string]).
    repeat (constructor; [vm_compute; discriminate |]). constructor.
  - assert (Hm1 : m = 1%Z).
    { change (e ∈ ["a"%string; "b"%string]) in He.
      apply elem_of_cons in He as [-> | He];
        [| apply list_elem_of_singleton in He as ->];
        rewrite <- Hm; reflexivity. }
    now rewrite Hm1 in H.
Defined.

(** X7: what [_get_start_pos_util] returns when it returns: a minimum gap
    that is not negative, a bunching that is not negative unless the keyword
    arguments override it, the [x0] of the keyword arguments when there is
    one, an available length that is not negative, and as available edges
    exactly the candidate edges longer than the minimum gap plus a vehicle,
    in the order of the candidates. *)
Theorem X7_util_returns
    (sc : Scenario) (c : InitialConfig) (N : Z) (kw : kwargs) (u : util_out) :
  _get_start_pos_util sc c N kw = Ok u ->
  (0 <= u_min_gap u)%Q /\
  ((0 <= min_gap c)%Q -> (u_min_gap u == min_gap c)%Q) /\
  (kw !! "bunching"%string = None -> (0 <= u_bunching u)%Q) /\
  (forall v, kw !! "x0"%string = Some v -> u_x0 u = v) /\
  (kw !! "x0"%string = None -> u_x0 u = x0 c) /\
  (0 <= u_available_length u)%Q /\
  sublist (u_available_edges u) (dist_edges sc (edges_distribution c)) /\
  (forall e, e ∈ u_available_edges u <->
     e ∈ dist_edges sc (edges_distribution c) /\
     (u_min_gap u + VEHICLE_LENGTH < edge_length sc e)%Q).
Proof.
  intros Hu.
  destruct (util_returns _ _ _ _ _ Hu) as (Hmg & Hx0 & Hb & Hav & Hal).
  split; [rewrite Hmg; apply py_max_0_nonneg |].
  split.
  { intros Hg. rewrite Hmg. unfold py_max.
    destruct (Qlt_le_dec 0 (min_gap c)); [reflexivity | lra]. }
  split; [intros Hk; rewrite Hb; now apply resolve_bunching_clamped |].
  split; [intros v Hv; rewrite Hx0; unfold resolve_x0; now rewrite Hv |].
  split; [intros Hv; rewrite Hx0; unfold resolve_x0; now rewrite Hv |].
  split; [exact Hal |].
  split; [rewrite Hav; apply sublist_filter |].
  intros e. rewrite Hav at 1. rewrite list_elem_of_filter, long_enough_true.
  tauto.
Qed.

Lemma X7_util_returns_witness :
  exists u,
    _get_start_pos_util ring
      (MkInitialConfig false "uniform" (-3) 0 0 (-2) 1 DistAll) 4
      {[ "x0"%string := 7%Q ]} = Ok u /\
    (0 <= u_min_gap u)%Q /\ (0 <= u_bunching u)%Q /\ u_x0 u = 7%Q.
Proof.
  destruct (_get_start_pos_util ring
              (MkInitialConfig false "uniform" (-3) 0 0 (-2) 1 DistAll) 4
              {[ "x0"%string := 7%Q ]})
    as [u | e |] eqn:Hu; [| vm_compute in Hu; discriminate Hu ..].
  exists u. split; [reflexivity |].
  destruct (X7_util_returns ring _ 4 _ u Hu) as (Hg & _ & Hb & Hx & _).
  split; [exact Hg |]. split; [now apply Hb | now apply Hx].
Defined.

(** ** An empty [edges_distribution] *)

Lemma util_no_candidate (sc : Scenario) (c : InitialConfig) (N : Z)
    (kw : kwargs) :
  dist_edges sc (edges_distribution c) = [] ->
  _get_start_pos_util sc c N kw = Raise (ValueError MAX_EMPTY).
Proof. intros H. unfold _get_start_pos_util. now rewrite H. Qed.

(** X8: with an empty list as [edges_distribution] (or ["all"] on a network
    without road edges) both strategies raise the [ValueError] of [max] on
    an empty sequence, whatever the number of vehicles, zero included; with
    an empty mapping the uniform strategy raises [IndexError] while the
    random strategy returns no placement and leaves the heap as it is. *)
Theorem X8_empty_edges_distribution
    (sc : Scenario) (gauss unif : nat -> Q) (kw : kwargs) (fuel : nat)
    (N : Z) (h : heap) :
  ((forall d, edges_distribution (h_config h) <> DistDict d) ->
   dist_edges sc (edges_distribution (h_config h)) = [] ->
   gen_even_start_pos sc gauss kw fuel N h = Raise (ValueError MAX_EMPTY) /\
   gen_random_start_pos sc unif kw N h = Raise (ValueError MAX_EMPTY)) /\
  (edges_distribution (h_config h) = DistDict [] ->
   gen_even_start_pos sc gauss kw fuel N h = Raise IndexError /\
   gen_random_start_pos sc unif kw N h = Ok (([], []), h)).
Proof.
  split.
  - intros Hnd Hnil. unfold gen_even_start_pos, gen_random_start_pos.
    destruct (edges_distribution (h_config h)) as [| l | d] eqn:Hd;
      try (exfalso; now apply (Hnd d));
      unfold gen_even_plain, gen_random_plain;
      rewrite (util_no_candidate sc (h_config h) N kw)
        by (now rewrite Hd); split; reflexivity.
  - intros Hd. unfold gen_even_start_pos, gen_random_start_pos.
    rewrite Hd. split; reflexivity.
Qed.

Lemma X8_empty_edges_distribution_witness :
  gen_even_start_pos ring (fun _ => 0%Q) ∅ 10 0
    (fresh_heap (plain_config (DistList [])))
  = Raise (ValueError MAX_EMPTY) /\
  gen_random_start_pos ring half_draws ∅ 0
    (fresh_heap (random_config (DistDict [])))
  = Ok (([], []), fresh_heap (random_config (DistDict []))).
Proof.
  split.
  - refine (proj1 (proj1 (X8_empty_edges_distribution ring (fun _ => 0%Q)
              half_draws ∅ 10 0 (fresh_heap (plain_config (DistList []))))
              _ _)); [discriminate | reflexivity].
  - refine (proj2 (proj2 (X8_empty_edges_distribution ring (fun _ => 0%Q)
              half_draws ∅ 10 0 (fresh_heap (random_config (DistDict []))))
              _)); reflexivity.
Defined.

(** ** The uniform strategy: lanes and number of placements *)

Lemma py_range_bounds (k : Z) :
  Forall (fun l => (0 <= l < k)%Z) (py_range k).
Proof.
  unfold py_range. apply Forall_forall. intros l Hl.
  apply list_elem_of_fmap in Hl as (i & -> & Hi).
  apply elem_of_seq in Hi. lia.
Qed.

Lemma fill_lanes_lanes (sc : Scenario) (lanes : list Z) (pos : string * Q)
    (N cc : Z) (acc : placements) (cc' : Z) (acc' : placements) :
  fill_lanes lanes pos N cc acc = (cc', acc') ->
  Forall (lane_of_edge sc pos) lanes ->
  Forall2 (lane_of_edge sc) acc.1 acc.2 ->
  Forall2 (lane_of_edge sc) acc'.1 acc'.2.
Proof.
  revert cc acc. induction lanes as [| lane r IH]; intros cc acc; simpl.
  - now intros [= <- <-].
  - intros Hrun Hl Hacc. apply Forall_cons in Hl as [Hlane Hr].
    assert (Hnext : Forall2 (lane_of_edge sc) (acc.1 ++ [pos])
                            (acc.2 ++ [lane])).
    { apply Forall2_app; [exact Hacc |].
      constructor; [exact Hlane | constructor]. }
    destruct (cc + 1 =? N)%Z.
    + now injection Hrun as <- <-.
    + now apply (IH _ _ Hrun Hr).
Qed.

Lemma place_loop_lanes (sc : Scenario) (fuel : nat) (u : util_out)
    (flag : bool) (N : Z) :
  forall (x inc : Q) (cc : Z) (acc acc' : placements),
    place_loop sc fuel u flag N x inc cc acc = Ok acc' ->
    Forall2 (lane_of_edge sc) acc.1 acc.2 ->
    Forall2 (lane_of_edge sc) acc'.1 acc'.2.
Proof.
  induction fuel as [| fuel IH]; intros x inc cc acc acc' Hrun Hacc;
    cbn [place_loop] in Hrun;
    destruct (cc <? N)%Z eqn:Hlt; cbn [negb] in Hrun;
    try discriminate; try (now injection Hrun as <-).
  destruct (get_edge sc x) as [pos |]; [| discriminate].
  destruct (skip_internal _ _ _ _) as [[x1 pos1] | |]; try discriminate.
  cbn [rbind] in Hrun.
  destruct (seek_available _ _ _ _ _) as [[x2 pos2] | |]; try discriminate.
  cbn [rbind] in Hrun.
  set (branch := flag && negb (Qle_bool VEHICLE_LENGTH pos2.2)) in Hrun.
  assert (Hstep : forall x3 (pos3 : string * Q) inc3 r,
    (let '(car_count, acc0) :=
       fill_lanes (py_range (Z.min (num_lanes sc pos3.1)
                                   (u_lanes_distribution u)))
                  pos3 N cc acc in
     let? x4 := py_mod (x3 + inc3 + VEHICLE_LENGTH + u_min_gap u)
                       (net_length sc) in
     place_loop sc fuel u flag N x4 inc3 car_count acc0) = Ok r ->
    Forall2 (lane_of_edge sc) r.1 r.2).
  { intros x3 pos3 inc3 r Hr.
    destruct (fill_lanes _ _ _ _ _) as [cc' acc0] eqn:Hfill.
    apply (fill_lanes_lanes sc) in Hfill; [| | exact Hacc].
    - destruct (py_mod _ _) as [x4 | |]; try discriminate.
      cbn [rbind] in Hr. now apply IH in Hr.
    - eapply Forall_impl; [apply py_range_bounds |].
      unfold lane_of_edge. simpl. intros; lia. }
  destruct branch; eapply Hstep; exact Hrun.
Qed.

Lemma perturb_loop_length (sc : Scenario) (gauss : nat -> Q)
    (idx : list nat) (drawn : nat) sp sp' :
  perturb_loop sc gauss idx drawn sp = Ok sp' ->
  List.length sp' = List.length sp.
Proof.
  intros H. apply perturb_loop_names in H.
  now rewrite <- (length_map fst sp'), H, length_map.
Qed.

Lemma lane_of_edge_names (sc : Scenario) (sp sp' : list (string * Q))
    (sl : list Z) :
  map fst sp' = map fst sp ->
  Forall2 (lane_of_edge sc) sp sl -> Forall2 (lane_of_edge sc) sp' sl.
Proof.
  intros Hn H.
  apply (Forall2_fmap_l fst (fun e l => (0 <= l < num_lanes sc e)%Z)).
  change (map fst sp') with (fst <$> sp') in Hn. rewrite Hn.
  now apply Forall2_fmap_l.
Qed.

(** The plain uniform run returns [N] start positions (none when [N] is
    negative), each with a lane of its edge. *)
Lemma gen_even_plain_lanes (sc : Scenario) (gauss : nat -> Q) (kw : kwargs)
    (fuel : nat) (N : Z) (h : heap)
    (sp : list (string * Q)) (sl : list Z) (h' : heap) :
  gen_even_plain sc gauss kw fuel N h = Ok ((sp, sl), h') ->
  Forall2 (lane_of_edge sc) sp sl /\ List.length sp = Z.to_nat N.
Proof.
  unfold gen_even_plain.
  destruct (_get_start_pos_util _ _ _ _) as [u | |]; try discriminate.
  cbn [rbind].
  destruct (N =? 0)%Z eqn:HN.
  { intros [= <- <- <-]. apply Z.eqb_eq in HN. subst N.
    split; [constructor | reflexivity]. }
  destruct (place_loop _ _ _ _ _ _ _ _ _) as [[sp0 sl0] | |] eqn:Hloop;
    try discriminate.
  cbn [rbind].
  assert (Hlanes : Forall2 (lane_of_edge sc) sp0 sl0).
  { apply place_loop_lanes in Hloop; [exact Hloop | constructor]. }
  assert (Hlen : List.length sp0 = Z.to_nat N).
  { destruct (Z.ltb_spec 0 N) as [Hpos | Hneg].
    - apply place_loop_spec in Hloop as [_ Hlen];
        [| lia | reflexivity | constructor].
      simpl in Hlen. lia.
    - apply Z.eqb_neq in HN.
      assert (Hstop : (0 <? N)%Z = false) by (apply Z.ltb_ge; lia).
      destruct fuel; cbn [place_loop] in Hloop; rewrite Hstop in Hloop;
        injection Hloop as <- <-; simpl; lia. }
  destruct (negb (Qle_bool (perturbation (h_config h)) 0)).
  - destruct (perturb_loop _ _ _ _ _) as [sp1 | |] eqn:Hpert;
      try discriminate.
    cbn [rbind]. intros [= <- <- <-]. split.
    + eapply lane_of_edge_names; [| exact Hlanes].
      exact (perturb_loop_names _ _ _ _ _ _ Hpert).
    + now rewrite (perturb_loop_length _ _ _ _ _ _ Hpert).
  - intros [= <- <- <-]. now split.
Qed.

(** The expansion loop: a property of the placements of every call that is
    kept by concatenation holds of the whole result. *)
Lemma expand_keys_placements
    (strategy : Z -> heap -> result (placements * heap))
    (good : list (string * Q) -> list Z -> Prop) :
  (forall a b c d, good a b -> good c d -> good (a ++ c) (b ++ d)) ->
  (forall N h sp sl h', strategy N h = Ok ((sp, sl), h') -> good sp sl) ->
  forall items acc h acc' h',
    expand_keys strategy items acc h = Ok (acc', h') ->
    good acc.1 acc.2 -> good acc'.1 acc'.2.
Proof.
  intros Happ Hstrat. induction items as [| [key v] r IH];
    intros acc h acc' h'; cbn [expand_keys].
  - now intros [= <- <-].
  - match goal with
    | |- context [strategy ?n ?hh] =>
        destruct (strategy n hh) as [[[pos lane] h3] | |] eqn:Hs;
          try discriminate
    end.
    cbn [rbind]. intros Hrest Hacc.
    apply (IH _ _ _ _ Hrest). simpl.
    apply Happ; [exact Hacc | exact (Hstrat _ _ _ _ _ Hs)].
Qed.

Lemma expand_keys_length
    (strategy : Z -> heap -> result (placements * heap)) :
  (forall N h sp sl h', strategy N h = Ok ((sp, sl), h') ->
     List.length sp = Z.to_nat N) ->
  forall items acc h acc' h',
    expand_keys strategy items acc h = Ok (acc', h') ->
    Forall (fun kv => (0 <= key_count kv.2)%Z) items ->
    Z.of_nat (List.length acc'.1)
    = (Z.of_nat (List.length acc.1) + mapping_total items)%Z.
Proof.
  intros Hstrat. induction items as [| [key v] r IH];
    intros acc h acc' h'; cbn [expand_keys].
  - intros [= <- <-] _. simpl. lia.
  - match goal with
    | |- context [strategy ?n ?hh] =>
        destruct (strategy n hh) as [[[pos lane] h3] | |] eqn:Hs;
          try discriminate
    end.
    cbn [rbind]. intros Hrest Hnn.
    apply Forall_cons in Hnn as [Hv Hr]. simpl in Hv.
    rewrite (IH _ _ _ _ Hrest Hr). simpl.
    rewrite length_app, (Hstrat _ _ _ _ _ Hs). lia.
Qed.

Lemma sum_results_total (f : dist_value -> result Z)
    (l : list (string * dist_value)) :
  (forall v n, f v = Ok n -> n = key_count v) ->
  forall acc t, sum_results f acc l = Ok t ->
                t = (acc + mapping_total l)%Z.
Proof.
  intros Hf. induction l as [| kv r IH]; intros acc t; simpl.
  - intros [= <-]. lia.
  - destruct (f kv.2) as [n | |] eqn:Hn; try discriminate.
    simpl rbind. intros H. apply IH in H. apply Hf in Hn. lia.
Qed.

Lemma num_vehicles_e_total (d : list (string * dist_value)) (t : Z) :
  num_vehicles_e d = Ok t -> t = mapping_total d.
Proof.
  unfold num_vehicles_e. destruct d as [| [k [n | l]] r]; [discriminate | |];
    intros H; apply sum_results_total in H; try lia.
  - intros [m | l] n0; simpl; [now intros [= <-] | discriminate].
  - intros [m | l0] n0; simpl; [discriminate | now intros [= <-]].
Qed.

Lemma gen_even_start_pos_lanes
    (sc : Scenario) (gauss : nat -> Q) (kw : kwargs) (fuel : nat) (N : Z)
    (h : heap) (sp : list (string * Q)) (sl : list Z) (h' : heap) :
  gen_even_start_pos sc gauss kw fuel N h = Ok ((sp, sl), h') ->
  Forall2 (lane_of_edge sc) sp sl.
Proof.
  intros Hrun. unfold gen_even_start_pos in Hrun.
  destruct (edges_distribution (h_config h)) as [| l | d].
  - now apply gen_even_plain_lanes in Hrun as [Hrun _].
  - now apply gen_even_plain_lanes in Hrun as [Hrun _].
  - destruct (num_vehicles_e d) as [total | |]; try discriminate.
    cbn [rbind] in Hrun. destruct (negb (N =? total)%Z); [discriminate |].
    apply (expand_keys_placements _ (Forall2 (lane_of_edge sc)))
      in Hrun; [exact Hrun | | | constructor].
    + intros a b c d0. apply Forall2_app.
    + intros N0 h0 sp0 sl0 h0' H0.
      now apply gen_even_plain_lanes in H0 as [H0 _].
Qed.

(** X9: every placement of the uniform strategy comes with a lane of its
    edge: positions and lanes have the same number of entries, and each
    lane index is at least 0 and below the lane count of the edge of its
    position. *)
Theorem X9_uniform_lane_within_edge
    (sc : Scenario) (gauss : nat -> Q) (kw : kwargs) (fuel : nat) (N : Z)
    (h : heap) (sp : list (string * Q)) (sl : list Z) (h' : heap) :
  gen_even_start_pos sc gauss kw fuel N h = Ok ((sp, sl), h') ->
  List.length sp = List.length sl /\
  Forall2 (fun q lane => (0 <= lane < num_lanes sc q.1)%Z) sp sl.
Proof.
  intros Hrun. apply gen_even_start_pos_lanes in Hrun.
  split; [exact (Forall2_length _ _ _ Hrun) | exact Hrun].
Qed.

Lemma X9_uniform_lane_within_edge_witness :
  exists sp sl h',
    gen_even_start_pos ring (fun _ => 0%Q) ∅ 10 5
      (fresh_heap (plain_config three_and_two)) = Ok ((sp, sl), h') /\
    List.length sp = List.length sl.
Proof.
  destruct (gen_even_start_pos ring (fun _ => 0%Q) ∅ 10 5
              (fresh_heap (plain_config three_and_two)))
    as [[[sp sl] h'] | e |] eqn:Hrun;
    [| vm_compute in Hrun; discriminate Hrun ..].
  exists sp, sl, h'. split; [reflexivity |].
  exact (proj1 (X9_uniform_lane_within_edge _ _ _ _ _ _ _ _ _ Hrun)).
Defined.

Lemma gen_even_start_pos_count
    (sc : Scenario) (gauss : nat -> Q) (kw : kwargs) (fuel : nat) (N : Z)
    (h : heap) (sp : list (string * Q)) (sl : list Z) (h' : heap) :
  counts_nonneg (edges_distribution (h_config h)) ->
  gen_even_start_pos sc gauss kw fuel N h = Ok ((sp, sl), h') ->
  List.length sp = Z.to_nat N /\ List.length sl = Z.to_nat N.
Proof.
  intros Hnn Hrun.
  assert (Hlen : List.length sp = List.length sl).
  { exact (Forall2_length _ _ _
             (gen_even_start_pos_lanes _ _ _ _ _ _ _ _ _ Hrun)). }
  rewrite <- Hlen. cut (List.length sp = Z.to_nat N); [tauto |].
  unfold gen_even_start_pos in Hrun.
  destruct (edges_distribution (h_config h)) as [| l | d].
  - now apply gen_even_plain_lanes in Hrun as [_ Hrun].
  - now apply gen_even_plain_lanes in Hrun as [_ Hrun].
  - destruct (num_vehicles_e d) as [total | |] eqn:Ht; try discriminate.
    cbn [rbind] in Hrun.
    destruct (N =? total)%Z eqn:HN; [| discriminate]. cbn [negb] in Hrun.
    apply Z.eqb_eq in HN. apply num_vehicles_e_total in Ht.
    apply expand_keys_length in Hrun; [| | exact Hnn].
    + simpl in Hrun. lia.
    + intros N0 h0 sp0 sl0 h0' H1.
      now apply gen_even_plain_lanes in H1 as [_ H1].
Qed.

(** X10: the uniform strategy returns as many placements as vehicles were
    asked for: [num_vehicles] of them (none when it is negative), provided,
    for a mapping, that none of its counts is negative. *)
Theorem X10_uniform_number_of_placements
    (sc : Scenario) (gauss : nat -> Q) (kw : kwargs) (fuel : nat) (N : Z)
    (h : heap) (sp : list (string * Q)) (sl : list Z) (h' : heap) :
  counts_nonneg (edges_distribution (h_config h)) ->
  gen_even_start_pos sc gauss kw fuel N h = Ok ((sp, sl), h') ->
  List.length sp = Z.to_nat N /\ List.length sl = Z.to_nat N.
Proof. apply gen_even_start_pos_count. Qed.

Lemma X10_uniform_number_of_placements_witness :
  exists sp sl h',
    gen_even_start_pos ring (fun _ => 0%Q) ∅ 10 5
      (fresh_heap (plain_config three_and_two)) = Ok ((sp, sl), h') /\
    List.length sp = 5%nat /\ List.length sl = 5%nat.
Proof.
  destruct (gen_even_start_pos ring (fun _ => 0%Q) ∅ 10 5
              (fresh_heap (plain_config three_and_two)))
    as [[[sp sl] h'] | e |] eqn:Hrun;
    [| vm_compute in Hrun; discriminate Hrun ..].
  exists sp, sl, h'. split; [reflexivity |].
  refine (X10_uniform_number_of_placements _ _ _ _ _ _ _ _ _ _ Hrun).
  simpl. repeat (constructor; [simpl; lia |]). constructor.
Defined.

(** ** The random strategy *)

(** The remainder of a positive divisor lies in [[0, b)]. *)
Lemma py_mod_range (a b r : Q) :
  (0 < b)%Q -> py_mod a b = Ok r -> (0 <= r)%Q /\ (r < b)%Q.
Proof.
  intros Hb. unfold py_mod. destruct (Qeq_bool b 0); [discriminate |].
  intros Hr.
  assert (Hr' : r = (a - Qof (Qfloor (a / b)) * b)%Q) by congruence.
  clear Hr. subst r.
  pose proof (Qfloor_le (a / b)) as Hlo.
  pose proof (Qlt_floor (a / b)) as Hhi.
  rewrite inject_Z_plus in Hhi. change (inject_Z 1) with 1%Q in Hhi.
  fold (Qof (Qfloor (a / b))) in Hlo, Hhi.
  assert (Ha : (a == a / b * b)%Q).
  { field. intros Hz. rewrite Hz in Hb. now apply Qlt_irrefl in Hb. }
  assert (H1 : (Qof (Qfloor (a / b)) * b <= a / b * b)%Q).
  { apply Qmult_le_compat_r; [exact Hlo | lra]. }
  assert (H2 : (a / b * b < (Qof (Qfloor (a / b)) + 1) * b)%Q).
  { apply Qmult_lt_compat_r; [lra | exact Hhi]. }
  rewrite <- Ha in H1, H2.
  assert (H3 : ((Qof (Qfloor (a / b)) + 1) * b
                == Qof (Qfloor (a / b)) * b + b)%Q) by ring.
  rewrite H3 in H2.
  set (fb := (Qof (Qfloor (a / b)) * b)%Q) in *.
  split; lra.
Qed.

Lemma walk_edges_spec (sc : Scenario) (u : util_out) (efs a : Q)
    (fuel : nat) :
  (forall e, e ∈ u_available_edges u -> (efs < edge_length sc e)%Q) ->
  forall (dec : Q) (i : nat) e pos lane dec' i',
    walk_edges sc fuel u efs a dec i = Ok (e, pos, lane, dec', i') ->
    e ∈ u_available_edges u /\
    (efs <= pos)%Q /\ (pos < edge_length sc e)%Q /\
    (lane < num_lanes sc e)%Z.
Proof.
  intros Hlong.
  induction fuel as [| fuel IH]; intros dec i e pos lane dec' i' Hrun;
    cbn [walk_edges] in Hrun;
    (destruct (u_available_edges u !! i) as [edge_i |] eqn:Hi;
       [| discriminate]);
    (destruct (py_mod _ _) as [pos_i | |] eqn:Hmod; try discriminate);
    cbn [rbind] in Hrun;
    (destruct (Z.ltb_spec (usable_lanes sc u edge_i - 1)
                (py_int ((a - dec - pos_i) / (edge_length sc edge_i - efs))))
       as [Hmore | Hfit]);
    try discriminate; try (now apply IH in Hrun);
    injection Hrun as <- <- <- <- <-;
    (assert (Hin : edge_i ∈ u_available_edges u)
       by (apply list_elem_of_lookup; eauto));
    pose proof (Hlong _ Hin) as Hl;
    (apply py_mod_range in Hmod as [H0 H1]; [| lra]);
    (repeat split; [exact Hin | lra | lra |]);
    unfold usable_lanes in Hfit; lia.
Qed.

Lemma random_loop_spec (sc : Scenario) (u : util_out) (efs : Q)
    (good : string * Q -> Z -> Prop) :
  (forall fuel a dec i e pos lane dec' i',
     walk_edges sc fuel u efs a dec i = Ok (e, pos, lane, dec', i') ->
     good (e, pos) lane) ->
  forall positions dec i acc acc',
    random_loop sc u efs positions dec i acc = Ok acc' ->
    Forall2 good acc.1 acc.2 ->
    Forall2 good acc'.1 acc'.2 /\
    List.length acc'.1 = (List.length acc.1 + List.length positions)%nat.
Proof.
  intros Hwalk. induction positions as [| a r IH]; intros dec i acc acc';
    cbn [random_loop].
  - intros [= <-] Hacc. split; [exact Hacc | simpl; lia].
  - destruct (walk_edges _ _ _ _ _ _ _)
      as [[[[[e pos] lane] dec'] i'] | |] eqn:Hw; try discriminate.
    cbn [rbind]. intros Hrun Hacc.
    apply IH in Hrun as [Hall Hlen].
    + split; [exact Hall |]. rewrite Hlen. simpl. rewrite length_app.
      simpl. lia.
    + simpl. apply Forall2_app; [exact Hacc |].
      constructor; [| constructor]. exact (Hwalk _ _ _ _ _ _ _ _ _ Hw).
Qed.

Lemma insert_sorted_perm (a : Q) (l : list Q) : insert_sorted a l ≡ₚ a :: l.
Proof.
  induction l as [| b r IH]; simpl; [reflexivity |].
  destruct (Qle_bool a b); [reflexivity |].
  rewrite IH. apply Permutation_swap.
Qed.

Lemma sort_asc_perm (l : list Q) : sort_asc l ≡ₚ l.
Proof.
  induction l as [| a r IH]; simpl; [reflexivity |].
  now rewrite insert_sorted_perm, IH.
Qed.

(** The plain random run. *)
Lemma gen_random_plain_spec (sc : Scenario) (unif : nat -> Q) (kw : kwargs)
    (N : Z) (h : heap) (sp : list (string * Q)) (sl : list Z) (h' : heap) :
  gen_random_plain sc unif kw N h = Ok ((sp, sl), h') ->
  Forall2 (random_placed sc (h_config h)) sp sl /\
  List.length sp = Z.to_nat N /\
  h' = MkHeap (h_config h) (h_total_veh_types h) (h_gauss h)
              (h_unif h + Z.to_nat N).
Proof.
  unfold gen_random_plain.
  destruct (_get_start_pos_util _ _ _ _) as [u | |] eqn:Hu;
    try discriminate.
  cbn [rbind].
  destruct (random_loop _ _ _ _ _ _ _) as [[sp0 sl0] | |] eqn:Hloop;
    try discriminate.
  cbn [rbind]. intros [= <- <- <-].
  destruct (util_returns _ _ _ _ _ Hu) as (Hmg & _ & _ & Hav & _).
  apply (random_loop_spec sc u _ (random_placed sc (h_config h)))
    in Hloop as [Hall Hlen]; [| | constructor].
  - split; [exact Hall |]. split; [| reflexivity].
    simpl in Hlen. rewrite Hlen.
    now rewrite length_imap, (Permutation_length (sort_asc_perm _)),
      length_map, length_seq.
  - intros fuel a dec i e pos lane dec' i' Hw.
    apply walk_edges_spec in Hw as (Hin & H0 & H1 & H2).
    + unfold random_placed. simpl. rewrite <- Hmg.
      split; [| now repeat split].
      rewrite Hav in Hin. now apply list_elem_of_filter in Hin as [_ Hin].
    + intros e0 He0. rewrite Hav in He0.
      apply list_elem_of_filter in He0 as [Hl _].
      now apply long_enough_true in Hl.
Qed.




(** ** Placements under ["all"] *)

Lemma filter_edge_ids_road (keys l : list string) :
  filter_edge_ids keys = Ok l ->
  forall e, e ∈ l -> is_road e = true /\ e ∈ keys.
Proof.
  revert l. induction keys as [| k r IH]; intros l; simpl.
  - intros [= <-] e He. inversion He.
  - destruct k as [| c k']; [discriminate |]. simpl.
    destruct (filter_edge_ids r) as [t | |]; try discriminate.
    simpl. intros [= <-] e He.
    destruct (is_colon c) eqn:Hc.
    + destruct (IH t eq_refl e He) as [H1 H2]. split; [exact H1 | now right].
    + apply elem_of_cons in He as [-> | He].
      * split; [simpl; now rewrite Hc | left].
      * destruct (IH t eq_refl e He) as [H1 H2].
        split; [exact H1 | now right].
Qed.

Lemma Scenario_init_edge_list (n : NetSpec) (sc : Scenario) (e : string) :
  Scenario_init n = Ok sc ->
  e ∈ _edge_list sc ->
  is_road e = true /\ is_Some (_edges sc !! e).
Proof.
  unfold Scenario_init.
  destruct (filter_edge_ids _) as [edge_list | |] eqn:Hf; try discriminate.
  simpl rbind.
  destruct (py_max_listQ _) as [top | |]; try discriminate.
  simpl rbind. intros [= <-]. simpl. intros He.
  destruct (filter_edge_ids_road _ _ Hf e He) as [Hr Hk].
  split; [exact Hr | now apply dict_lookup_is_Some].
Qed.

(** X12: on a scenario built by [__init__], with ["all"] as
    [edges_distribution], every vehicle of the uniform and of the random
    strategy is placed on a road edge of the network (an entry of [_edges]
    whose identifier does not start with a colon) that is longer than a
    vehicle. *)
Theorem X12_all_places_on_road_edges
    (n : NetSpec) (sc : Scenario) (gauss unif : nat -> Q) (kw : kwargs)
    (fuel : nat) (N : Z) (h : heap)
    (sp : list (string * Q)) (sl : list Z) (h' : heap) :
  Scenario_init n = Ok sc ->
  edges_distribution (h_config h) = DistAll ->
  gen_even_start_pos sc gauss kw fuel N h = Ok ((sp, sl), h') \/
  gen_random_start_pos sc unif kw N h = Ok ((sp, sl), h') ->
  Forall (fun q => is_road q.1 = true /\ is_Some (_edges sc !! q.1) /\
                   (VEHICLE_LENGTH < edge_length sc q.1)%Q) sp.
Proof.
  intros Hinit Hd Hrun.
  assert (Hplaced : Forall (fun q => q.1 ∈ _edge_list sc /\
                              (VEHICLE_LENGTH < edge_length sc q.1)%Q) sp).
  { destruct Hrun as [Hrun | Hrun].
    - unfold gen_even_start_pos in Hrun. rewrite Hd in Hrun.
      apply gen_even_plain_spec in Hrun as (_ & Hall & _).
      now rewrite Hd in Hall.
    - unfold gen_random_start_pos in Hrun. rewrite Hd in Hrun.
      apply gen_random_plain_spec in Hrun as (Hall & _ & _).
      eapply (Forall2_Forall_l _ _ _ _ Hall).
      apply Forall_forall. intros lane _ q Hq.
      unfold random_placed in Hq. rewrite Hd in Hq.
      destruct Hq as (Hin & Hlo & Hhi & _).
      split; [exact Hin |].
      pose proof (py_max_0_nonneg (min_gap (h_config h))). lra. }
  eapply Forall_impl; [exact Hplaced |]. intros q [Hq Hlen].
  destruct (Scenario_init_edge_list n sc q.1 Hinit Hq) as [Hr Hs].
  now repeat split.
Qed.

Lemma X12_all_places_on_road_edges_witness :
  exists sp sl h',
    gen_even_start_pos ring (fun _ => 0%Q) ∅ 10 4
      (fresh_heap (plain_config DistAll)) = Ok ((sp, sl), h') /\
    Forall (fun q => is_road q.1 = true) sp.
Proof.
  destruct (gen_even_start_pos ring (fun _ => 0%Q) ∅ 10 4
              (fresh_heap (plain_config DistAll)))
    as [[[sp sl] h'] | e |] eqn:Hrun;
    [| vm_compute in Hrun; discriminate Hrun ..].
  exists sp, sl, h'. split; [reflexivity |].
  eapply Forall_impl;
    [exact (X12_all_places_on_road_edges ring_spec ring (fun _ => 0%Q)
              (fun _ => 0%Q) ∅ 10 4 (fresh_heap (plain_config DistAll))
              sp sl h' ring_init eq_refl
              (or_introl Hrun)) |].
  intros q H. apply H.
Defined.

(** ** The uniform strategy without perturbation *)

Lemma gen_even_plain_no_draw (sc : Scenario) (g1 g2 : nat -> Q)
    (kw : kwargs) (fuel : nat) (N : Z) (h : heap) :
  (perturbation (h_config h) <= 0)%Q ->
  gen_even_plain sc g1 kw fuel N h = gen_even_plain sc g2 kw fuel N h.
Proof.
  intros Hp. apply Qle_bool_iff in Hp. unfold gen_even_plain.
  rewrite Hp. reflexivity.
Qed.

Lemma expand_keys_ext
    (s1 s2 : Z -> heap -> result (placements * heap))
    (B : InitialConfig -> Prop) :
  (forall N h, B (h_config h) -> s1 N h = s2 N h) ->
  (forall N h p h', s1 N h = Ok (p, h') -> h_config h' = h_config h) ->
  (forall c d, B c -> B (set_edges_distribution c d)) ->
  forall items acc h,
    B (h_config h) ->
    expand_keys s1 items acc h = expand_keys s2 items acc h.
Proof.
  intros Hext Hkeep HB. induction items as [| [key v] r IH];
    intros acc h Hb; cbn [expand_keys]; [reflexivity |].
  set (h1 := with_config h _).
  set (h2 := match v with CountInt _ => h1 | CountPairs _ => _ end).
  assert (Hcfg : h_config h2 =
                 set_edges_distribution (h_config h) (DistList [key]))
    by (subst h2 h1; destruct v; reflexivity).
  assert (Hb2 : B (h_config h2)) by (rewrite Hcfg; now apply HB).
  rewrite <- (Hext _ _ Hb2).
  destruct (s1 (key_count v) h2) as [[[pos lane] h3] | |] eqn:Hs;
    cbn [rbind]; try reflexivity.
  apply IH. now rewrite (Hkeep _ _ _ _ Hs).
Qed.

(** X13: when the perturbation is not positive the uniform strategy takes
    no Gaussian draw: its result is the same whatever the random source
    returns. *)
Theorem X13_uniform_without_perturbation_is_deterministic
    (sc : Scenario) (g1 g2 : nat -> Q) (kw : kwargs) (fuel : nat) (N : Z)
    (h : heap) :
  (perturbation (h_config h) <= 0)%Q ->
  gen_even_start_pos sc g1 kw fuel N h = gen_even_start_pos sc g2 kw fuel N h.
Proof.
  intros Hp. unfold gen_even_start_pos.
  destruct (edges_distribution (h_config h)) as [| l | d];
    try (now apply gen_even_plain_no_draw).
  destruct (num_vehicles_e d) as [total | |]; cbn [rbind]; try reflexivity.
  destruct (negb (N =? total)%Z); [reflexivity |].
  apply (expand_keys_ext _ _ (fun c => (perturbation c <= 0)%Q)).
  - intros N0 h0 H0. now apply gen_even_plain_no_draw.
  - intros N0 h0 p0 h0'. apply gen_even_plain_config.
  - intros c d0 Hc. exact Hc.
  - exact Hp.
Qed.

Lemma X13_uniform_without_perturbation_is_deterministic_witness :
  gen_even_start_pos ring wild_draws ∅ 10 4
    (fresh_heap (plain_config DistAll))
  = gen_even_start_pos ring (fun _ => 0%Q) ∅ 10 4
      (fresh_heap (plain_config DistAll)).
Proof.
  apply X13_uniform_without_perturbation_is_deterministic.
  simpl. apply Qle_refl.
Defined.

(** ** The vehicle types recorded *)

Lemma gen_even_plain_types (sc : Scenario) (gauss : nat -> Q) (kw : kwargs)
    (fuel : nat) (N : Z) (h : heap) p h' :
  gen_even_plain sc gauss kw fuel N h = Ok (p, h') ->
  h_total_veh_types h' = h_total_veh_types h.
Proof.
  unfold gen_even_plain.
  destruct (_get_start_pos_util _ _ _ _) as [u | |]; try discriminate.
  cbn [rbind]. destruct (N =? 0)%Z; [now intros [= <- <-] |].
  destruct (place_loop _ _ _ _ _ _ _ _ _) as [[sp0 sl0] | |];
    try discriminate.
  cbn [rbind]. destruct (negb _).
  - destruct (perturb_loop _ _ _ _ _) as [sp1 | |]; try discriminate.
    cbn [rbind]. now intros [= <- <-].
  - now intros [= <- <-].
Qed.

Lemma gen_random_plain_types (sc : Scenario) (unif : nat -> Q) (kw : kwargs)
    (N : Z) (h : heap) p h' :
  gen_random_plain sc unif kw N h = Ok (p, h') ->
  h_total_veh_types h' = h_total_veh_types h.
Proof.
  destruct p as [sp sl]. intros H.
  now apply gen_random_plain_spec in H as (_ & _ & ->).
Qed.

Lemma expand_keys_types
    (strategy : Z -> heap -> result (placements * heap)) :
  (forall N h p h', strategy N h = Ok (p, h') ->
     h_total_veh_types h' = h_total_veh_types h) ->
  forall items acc h acc' h',
    expand_keys strategy items acc h = Ok (acc', h') ->
    h_total_veh_types h'
    = h_total_veh_types h ++ flat_map (fun kv => key_veh_ids kv.2) items.
Proof.
  intros Hstrat. induction items as [| [key v] r IH];
    intros acc h acc' h'; cbn [expand_keys].
  - intros [= <- <-]. simpl. now rewrite app_nil_r.
  - set (h1 := with_config h _).
    set (h2 := match v with CountInt _ => h1 | CountPairs _ => _ end).
    assert (Htypes : h_total_veh_types h2
                     = h_total_veh_types h ++ key_veh_ids v).
    { subst h2 h1. destruct v; simpl; [now rewrite app_nil_r | reflexivity]. }
    destruct (strategy (key_count v) h2) as [[[pos lane] h3] | |] eqn:Hs;
      try discriminate.
    cbn [rbind]. intros Hrest.
    rewrite (IH _ _ _ _ Hrest), (Hstrat _ _ _ _ Hs), Htypes.
    simpl. now rewrite app_assoc.
Qed.

(** X14: a call of either strategy that returns appends to
    [self.total_veh_types] the vehicle types of the pair lists of the
    mapping, key by key and pair by pair, each type as many times as its
    count; what the list held before is kept, and nothing is appended when
    [edges_distribution] is not a mapping. *)
Theorem X14_total_veh_types_appended
    (sc : Scenario) (gauss unif : nat -> Q) (kw : kwargs) (fuel : nat)
    (N : Z) (h : heap) (p : placements) (h' : heap) :
  gen_even_start_pos sc gauss kw fuel N h = Ok (p, h') \/
  gen_random_start_pos sc unif kw N h = Ok (p, h') ->
  h_total_veh_types h'
  = h_total_veh_types h ++ recorded_types (edges_distribution (h_config h)).
Proof.
  unfold gen_even_start_pos, gen_random_start_pos, recorded_types.
  destruct (edges_distribution (h_config h)) as [| l | d];
    rewrite ?app_nil_r.
  - intros [H | H];
      [now apply gen_even_plain_types in H
      | now apply gen_random_plain_types in H].
  - intros [H | H];
      [now apply gen_even_plain_types in H
      | now apply gen_random_plain_types in H].
  - intros [H | H].
    + destruct (num_vehicles_e d) as [total | |]; try discriminate.
      cbn [rbind] in H. destruct (negb (N =? total)%Z); [discriminate |].
      apply expand_keys_types in H; [exact H |].
      intros N0 h0 p0 h0'. apply gen_even_plain_types.
    + apply expand_keys_types in H; [exact H |].
      intros N0 h0 p0 h0'. apply gen_random_plain_types.
Qed.

Lemma X14_total_veh_types_appended_witness :
  exists p h',
    gen_random_start_pos ring half_draws ∅ 3
      (MkHeap (random_config
                 (DistDict [("a"%string,
                             CountPairs [("human"%string, 2%Z);
                                         ("rl"%string, 1%Z)])]))
              ["old"%string] 0 0) = Ok (p, h') /\
    h_total_veh_types h'
    = ["old"%string; "human"%string; "human"%string; "rl"%string].
Proof.
  destruct (gen_random_start_pos ring half_draws ∅ 3
              (MkHeap (random_config
                 (DistDict [("a"%string,
                             CountPairs [("human"%string, 2%Z);
                                         ("rl"%string, 1%Z)])]))
              ["old"%string] 0 0))
    as [[p h'] | e |] eqn:Hrun;
    [| vm_compute in Hrun; discriminate Hrun ..].
  exists p, h'. split; [reflexivity |].
  exact (X14_total_veh_types_appended ring (fun _ => 0%Q) half_draws ∅ 0 3
           _ p h' (or_intror Hrun)).
Defined.

(** ** The check of the vehicle total *)

Lemma sum_results_same_kind (f : dist_value -> result Z)
    (l : list (string * dist_value)) :
  Forall (fun kv => f kv.2 = Ok (key_count kv.2)) l ->
  forall acc, sum_results f acc l = Ok (acc + mapping_total l)%Z.
Proof.
  induction 1 as [| kv r Hkv Hr IH]; intros acc; simpl.
  - f_equal. lia.
  - rewrite Hkv. simpl rbind. rewrite IH. f_equal. lia.
Qed.

Lemma num_vehicles_e_same_kind (d : list (string * dist_value)) :
  d <> [] -> same_kind d -> num_vehicles_e d = Ok (mapping_total d).
Proof.
  intros Hne [Hall | Hall]; destruct d as [| [k v] r]; try congruence;
    pose proof (proj1 (Forall_cons _ _ _) Hall) as [[x Hx] _];
    simpl in Hx; subst v; unfold num_vehicles_e;
    rewrite (sum_results_same_kind _ _); try reflexivity;
    (eapply Forall_impl; [exact Hall |]);
    intros kv [y Hy]; rewrite Hy; reflexivity.
Qed.

(** X15: on a non-empty mapping whose values are all counts, or all pair
    lists, the uniform strategy raises [AssertionError] whenever
    [num_vehicles] differs from the sum of the counts of the mapping. *)
Theorem X15_uniform_checks_total
    (sc : Scenario) (gauss : nat -> Q) (kw : kwargs) (fuel : nat) (N : Z)
    (h : heap) (d : list (string * dist_value)) :
  edges_distribution (h_config h) = DistDict d ->
  d <> [] -> same_kind d ->
  N <> mapping_total d ->
  gen_even_start_pos sc gauss kw fuel N h = Raise AssertionError.
Proof.
  intros Hd Hne Hkind HN. unfold gen_even_start_pos. rewrite Hd.
  rewrite (num_vehicles_e_same_kind d Hne Hkind). cbn [rbind].
  destruct (Z.eqb_spec N (mapping_total d)); [contradiction | reflexivity].
Qed.

Lemma X15_uniform_checks_total_witness :
  gen_even_start_pos ring (fun _ => 0%Q) ∅ 10 4
    (fresh_heap (plain_config three_and_two)) = Raise AssertionError.
Proof.
  apply (X15_uniform_checks_total ring (fun _ => 0%Q) ∅ 10 4
           (fresh_heap (plain_config three_and_two))
           [("a"%string, CountInt 3); ("b"%string, CountInt 2)] eq_refl).
  - discriminate.
  - left. repeat constructor; eexists; reflexivity.
  - discriminate.
Defined.

(** ** Identifiers with a lane suffix *)

Lemma has_underscore_app (s t : string) :
  has_underscore (s +:+ String "_"%char t) = true.
Proof.
  induction s as [| c s IH]; simpl; [reflexivity |].
  now rewrite IH, orb_true_r.
Qed.

Lemma rsplit_tail_none (t : string) :
  has_underscore t = false -> rsplit_tail t = None.
Proof.
  induction t as [| c t IH]; simpl; [reflexivity |].
  intros H. apply orb_false_iff in H as [Hc Ht].
  now rewrite (IH Ht), Hc.
Qed.

(** Splitting [name_suffix] at the last underscore gives [name] and
    [suffix] back. *)
Lemma rsplit_with_suffix (name suffix : string) :
  has_underscore suffix = false ->
  rsplit_head (with_suffix name suffix) = name /\
  rsplit_tail (with_suffix name suffix) = Some suffix.
Proof.
  intros Hs. unfold with_suffix. induction name as [| c s [IH1 IH2]]; simpl.
  - rewrite Hs, (rsplit_tail_none _ Hs). simpl. now split.
  - rewrite has_underscore_app, andb_false_r, IH1, IH2. now split.
Qed.

(** X16: for an internal lane identifier [name_suffix] that has no entry of
    its own in the internal table, [get_x] returns the start that the table
    of all edge starts gives for [name], whatever the relative position:
    the position is not added. *)
Theorem X16_get_x_generalised_internal_link
    (sc : Scenario) (c : ascii) (name suffix : string) (s p : Q) :
  is_colon c = true ->
  has_underscore suffix = false ->
  internal_edgestarts_dict sc !! with_suffix (String c name) suffix = None ->
  total_edgestarts_dict sc !! String c name = Some s ->
  get_x sc (with_suffix (String c name) suffix) p = Ok s.
Proof.
  intros Hc Hs Hint Htot.
  destruct (rsplit_with_suffix (String c name) suffix Hs) as [Hhead _].
  unfold get_x. unfold with_suffix in *. simpl in Hhead, Hint |- *.
  rewrite Hc, Hint, Hhead, Htot. reflexivity.
Qed.

Lemma X16_get_x_generalised_internal_link_witness :
  get_x ring ":j_0"%string 4 = Ok 50%Q.
Proof.
  apply (X16_get_x_generalised_internal_link ring ":"%char "j" "0" 50 4);
    reflexivity.
Defined.

(** ** The connections *)

Lemma conn_lookup_add_conn (t : conn_table) (e : string) (l : Z)
    (x : string * Z) (e' : string) (l' : Z) :
  conn_lookup (add_conn t e l x) e' l' =
    if decide (e = e' /\ l = l') then conn_lookup t e l ++ [x]
    else conn_lookup t e' l'.
Proof.
  unfold conn_lookup, add_conn, conn_table in *. cbv zeta.
  destruct (decide (e = e')) as [<- | He].
  - rewrite lookup_insert_eq.
    destruct (decide (l = l')) as [<- | Hl].
    + rewrite lookup_insert_eq.
      rewrite decide_True by done.
      destruct (t !! e) as [m |]; simpl; [| reflexivity].
      reflexivity.
    + rewrite lookup_insert_ne by done.
      rewrite decide_False by (intros [_ ?]; done).
      destruct (t !! e) as [m |]; simpl; reflexivity.
  - rewrite lookup_insert_ne by done.
    rewrite decide_False by (intros [? _]; done). reflexivity.
Qed.

Section ConnectionFacts.

Variable int_of_string : string -> option Z.

Lemma import_connections_inverse (no_links : bool)
    (connections : list (gmap string string)) :
  forall next prev next' prev',
    import_connections int_of_string no_links connections next prev
      = Ok (next', prev') ->
    (forall a la b lb,
       (b, lb) ∈ conn_lookup next a la <->
       (a, la) ∈ conn_lookup prev b lb) ->
    forall a la b lb,
      (b, lb) ∈ conn_lookup next' a la <-> (a, la) ∈ conn_lookup prev' b lb.
Proof.
  induction connections as [| attrib r IH]; intros next prev next' prev';
    cbn [import_connections].
  - now intros [= <- <-].
  - destruct (connection_endpoints _ _ _) as [[[fe fl] [te tl]] | |];
      try discriminate.
    cbn [rbind fst snd]. intros Hrun Hinv. apply (IH _ _ _ _ Hrun).
    intros a la b lb. rewrite !conn_lookup_add_conn.
    destruct (decide (fe = a /\ fl = la)) as [[-> ->] | Hsrc];
      destruct (decide (te = b /\ tl = lb)) as [[-> ->] | Hdst];
      rewrite ?elem_of_app, ?list_elem_of_singleton, Hinv.
    + tauto.
    + split; [intros [H | [= -> ->]]; [exact H | tauto] | tauto].
    + split; [tauto | intros [H | [= -> ->]]; [exact H | tauto]].
    + tauto.
Qed.

Lemma Scenario_init_connections (n : NetSpec) (sc : Scenario) :
  Scenario_init n = Ok sc ->
  _connections_next sc = gen_next n /\ _connections_prev sc = gen_prev n.
Proof.
  unfold Scenario_init.
  destruct (filter_edge_ids _) as [edge_list | |]; try discriminate.
  simpl rbind.
  destruct (py_max_listQ _) as [top | |]; try discriminate.
  simpl rbind. intros [= <-]. now split.
Qed.

(** X17: when the connection tables that [__init__] stores are those the
    import builds from the [connection] elements, successor and predecessor
    are inverse to each other: [(b, lb)] is among the next edge/lane pairs
    of [(a, la)] exactly when [(a, la)] is among the previous pairs of
    [(b, lb)]. *)
Theorem X17_connections_inverse (n : NetSpec)
    (connections : list (gmap string string)) (sc : Scenario)
    (a : string) (la : Z) (b : string) (lb : Z) :
  import_connections int_of_string (no_internal_links n) connections ∅ ∅
    = Ok (gen_next n, gen_prev n) ->
  Scenario_init n = Ok sc ->
  (b, lb) ∈ next_edge sc a la <-> (a, la) ∈ prev_edge sc b lb.
Proof.
  intros Hrun Hinit. unfold next_edge, prev_edge.
  destruct (Scenario_init_connections n sc Hinit) as [-> ->].
  apply (import_connections_inverse _ _ _ _ _ _ Hrun).
  intros a0 la0 b0 lb0. unfold conn_lookup, conn_table.
  rewrite !(lookup_empty (M := gmap string)).
  split; intros H; inversion H.
Qed.

(** X18: from a road edge of a network with internal links, the target of a
    connection is read from its ["via"] attribute: [edge_lane] gives the
    pair of [edge] and the number [lane], whatever ["to"] and ["toLane"]
    say. *)
Theorem X18_connection_target_from_via
    (attrib : gmap string string)
    (from_edge lane_text via_edge via_lane : string)
    (from_lane to_lane : Z) :
  attrib !! "from"%string = Some from_edge ->
  attrib !! "fromLane"%string = Some lane_text ->
  attrib !! "via"%string = Some (with_suffix via_edge via_lane) ->
  is_road from_edge = true ->
  has_underscore via_lane = false ->
  int_of_string lane_text = Some from_lane ->
  int_of_string via_lane = Some to_lane ->
  connection_endpoints int_of_string false attrib
  = Ok ((from_edge, from_lane), (via_edge, to_lane)).
Proof.
  intros Hf Hfl Hvia Hroad Hs Hi1 Hi2.
  destruct (rsplit_with_suffix via_edge via_lane Hs) as [Hhead Htail].
  unfold connection_endpoints, attr, py_int_str.
  rewrite Hf, Hfl. cbn [rbind]. rewrite Hi1. cbn [rbind].
  destruct from_edge as [| c r]; [discriminate |].
  simpl in Hroad. cbn [first_is_colon rbind].
  rewrite Hroad. cbn [andb negb]. rewrite Hvia. cbn [rbind].
  rewrite Hhead, Htail, Hi2. reflexivity.
Qed.

End ConnectionFacts.

Lemma X17_connections_inverse_witness :
  exists sc,
    Scenario_init linked_ring_spec = Ok sc /\
    ((":j"%string, 0%Z) ∈ next_edge sc "a" 0 <->
     ("a"%string, 0%Z) ∈ prev_edge sc ":j" 0).
Proof.
  destruct (Scenario_init linked_ring_spec) as [sc | |] eqn:Hinit;
    [| vm_compute in Hinit; discriminate Hinit ..].
  exists sc. split; [reflexivity |].
  apply (X17_connections_inverse digits linked_ring_spec ring_connections sc);
    [vm_compute; reflexivity | exact Hinit].
Defined.

Lemma X18_connection_target_from_via_witness :
  connection_endpoints digits false
    {[ "from"%string := "a"%string; "fromLane"%string := "0"%string;
       "to"%string := "b"%string; "toLane"%string := "0"%string;
       "via"%string := ":j_0"%string ]}
  = Ok (("a"%string, 0%Z), (":j"%string, 0%Z)).
Proof.
  apply (X18_connection_target_from_via digits _ "a" "0" ":j" "0" 0 0);
    reflexivity.
Defined.

(** ** Binding vehicles to start positions *)

Lemma vehicle_id_given (t v id : string) :
  _vehicle_id t 0 (Some v) = Ok id -> id = v /\ v <> ""%string.
Proof.
  destruct v as [| c r]; simpl; [discriminate |].
  intros [= <-]. split; [reflexivity | discriminate].
Qed.

Lemma NoDup_delete_lookup {A} (l : list A) (j : nat) (v : A) :
  NoDup l -> l !! j = Some v ->
  (v ∉ delete j l) /\ NoDup (delete j l) /\
  (forall x, x ∈ delete j l -> x ∈ l).
Proof.
  revert j. induction l as [| a l IH]; intros [| j] Hnd Hl;
    try discriminate; apply NoDup_cons in Hnd as [Ha Hnd]; simpl in *.
  - injection Hl as ->. repeat split; [exact Ha | exact Hnd |].
    intros x Hx. now right.
  - destruct (IH j Hnd Hl) as (Hv & Hnd' & Hsub). repeat split.
    + intros Hin. apply elem_of_cons in Hin as [-> | Hin]; [| now apply Hv].
      apply Ha. exact (list_elem_of_lookup_2 _ _ _ Hl).
    + apply NoDup_cons. split; [| exact Hnd'].
      intros Hin. apply Ha. now apply Hsub.
    + intros x Hx. apply elem_of_cons in Hx as [-> | Hx];
        [now left | right; now apply Hsub].
Qed.

Section RouteFacts.

Variable type_of : string -> string.
Variable initial_speed : string -> Q.
Variable shuffled : list string -> list string.

Lemma find_of_type_spec (wanted : option string) (ids : list string)
    (j : nat) :
  find_of_type type_of wanted ids = Ok j ->
  exists v, ids !! j = Some v /\ wanted = Some (type_of v) /\
            forall k w, (k < j)%nat -> ids !! k = Some w ->
                        wanted <> Some (type_of w).
Proof.
  revert j. induction ids as [| a r IH]; intros j; simpl; [discriminate |].
  destruct wanted as [t |]; [| discriminate].
  destruct (String.eqb (type_of a) t) eqn:Ha.
  - intros [= <-]. exists a. apply String.eqb_eq in Ha.
    repeat split; [now rewrite Ha | intros k w Hk; lia].
  - destruct (find_of_type type_of (Some t) r) as [k | |] eqn:Hf;
      try discriminate.
    cbn [rbind]. intros [= <-].
    destruct (IH k eq_refl) as (v & Hv & Ht & Hmin).
    exists v. repeat split; [exact Hv | exact Ht |].
    intros [| k'] w Hk Hw; simpl in Hw.
    + injection Hw as <-. intros [= E]. apply String.eqb_neq in Ha.
      now apply Ha.
    + apply (Hmin k' w); [lia | exact Hw].
Qed.

Lemma bind_vehicles_typed (t0 : string) (tr : list string)
    (pairs : list ((string * Q) * Z)) :
  forall (i : nat) (ids : list string) (elems : list vehicle_elem),
    NoDup ids ->
    bind_vehicles type_of initial_speed (t0 :: tr) i ids pairs = Ok elems ->
    Forall2 (bound_to type_of initial_speed) elems pairs /\
    NoDup (map ve_id elems) /\
    (forall v, v ∈ map ve_id elems -> v ∈ ids) /\
    map ve_type elems = take (length pairs) (drop i (t0 :: tr)).
Proof.
  induction pairs as [| [[edge pos] lane] r IH]; intros i ids elems Hnd;
    cbn [bind_vehicles].
  - intros [= <-]. repeat split; try constructor.
    intros v Hv. inversion Hv.
  - destruct (find_of_type type_of ((t0 :: tr) !! i) ids) as [j | |] eqn:Hf;
      try discriminate.
    cbn [rbind].
    destruct (ids !! j) as [v |] eqn:Hv; try discriminate. cbn [rbind].
    destruct (_vehicle_id _ 0 (Some v)) as [id | |] eqn:Hid;
      try discriminate.
    cbn [rbind]. apply vehicle_id_given in Hid as [-> _].
    destruct (bind_vehicles _ _ _ (S i) (delete j ids) r)
      as [rest | |] eqn:Hrest; try discriminate.
    cbn [rbind]. intros [= <-].
    destruct (NoDup_delete_lookup ids j v Hnd Hv) as (Hfresh & Hnd' & Hsub).
    destruct (IH (S i) (delete j ids) rest Hnd' Hrest)
      as (Hb & Hnd2 & Hin & Hty).
    destruct (find_of_type_spec _ _ _ Hf) as (v' & Hv' & Hwant & _).
    assert (v' = v) as -> by congruence.
    repeat split.
    + constructor; [repeat split | exact Hb].
    + cbn [map ve_id]. apply NoDup_cons. split; [| exact Hnd2].
      intros Hv2. apply Hfresh. now apply Hin.
    + cbn [map ve_id]. intros x Hx.
      apply elem_of_cons in Hx as [-> | Hx].
      * exact (list_elem_of_lookup_2 _ _ _ Hv).
      * now apply Hsub, Hin.
    + cbn [map ve_type length take]. rewrite (drop_S _ _ _ Hwant).
      cbn [take]. now rewrite Hty.
Qed.

Lemma bind_vehicles_untyped (pairs : list ((string * Q) * Z)) :
  forall (i : nat) (ids : list string),
    Forall (fun v => v <> ""%string) ids ->
    ((i + length pairs <= length ids)%nat ->
     exists elems,
       bind_vehicles type_of initial_speed [] i ids pairs = Ok elems /\
       Forall2 (bound_to type_of initial_speed) elems pairs /\
       map ve_id elems = take (length pairs) (drop i ids)) /\
    (pairs <> [] -> (length ids < i + length pairs)%nat ->
     bind_vehicles type_of initial_speed [] i ids pairs = Raise IndexError).
Proof.
  induction pairs as [| [[edge pos] lane] r IH]; intros i ids Hne;
    cbn [bind_vehicles length].
  - split; [| intros H; now contradiction H].
    intros _. exists []. repeat split. constructor.
  - destruct (IH (S i) ids Hne) as [IHok IHraise]. split.
    + intros Hlen.
      destruct (ids !! i) as [v |] eqn:Hv;
        [| apply lookup_ge_None in Hv; lia].
      cbn [rbind].
      assert (Hvne : v <> ""%string).
      { rewrite Forall_forall in Hne. apply Hne.
        exact (list_elem_of_lookup_2 _ _ _ Hv). }
      destruct v as [| c v]; [now contradiction Hvne |].
      cbn [_vehicle_id rbind].
      destruct IHok as (rest & -> & Hb & Hids); [lia |].
      cbn [rbind]. eexists. split; [reflexivity |]. split.
      * constructor; [repeat split | exact Hb].
      * cbn [map ve_id]. rewrite (drop_S _ _ _ Hv). cbn [take].
        now rewrite Hids.
    + intros _ Hlen.
      destruct (ids !! i) as [v |] eqn:Hv; [| reflexivity].
      cbn [rbind].
      assert (Hvne : v <> ""%string).
      { rewrite Forall_forall in Hne. apply Hne.
        exact (list_elem_of_lookup_2 _ _ _ Hv). }
      destruct v as [| c v]; [now contradiction Hvne |].
      cbn [_vehicle_id rbind].
      assert (Hi : (i < length ids)%nat).
      { apply lookup_lt_is_Some. rewrite Hv. eauto. }
      rewrite IHraise; [reflexivity | | lia].
      intros ->. simpl in Hlen. lia.
Qed.

(** X19: with recorded vehicle types and pairwise different vehicle
    identifiers, the elements [make_routes] writes are bound one to one:
    the k-th element carries the k-th (position, lane) pair, has the k-th
    recorded type, and its identifier is one of the fleet that no other
    element has. *)
Theorem X19_typed_binding (total_veh_types ids : list string)
    (positions : list (string * Q)) (lanes : list Z) (shuffle_ids : bool)
    (elems : list vehicle_elem) :
  total_veh_types <> [] ->
  NoDup ids ->
  shuffled ids ≡ₚ ids ->
  make_routes type_of initial_speed shuffled total_veh_types ids
              positions lanes shuffle_ids = Ok elems ->
  Forall2 (bound_to type_of initial_speed) elems (zip positions lanes) /\
  NoDup (map ve_id elems) /\
  (forall v, v ∈ map ve_id elems -> v ∈ ids) /\
  map ve_type elems = take (length (zip positions lanes)) total_veh_types.
Proof.
  intros Hty Hnd Hperm. unfold make_routes.
  destruct total_veh_types as [| t0 tr]; [now contradiction Hty |].
  intros Hrun. apply bind_vehicles_typed in Hrun.
  - destruct Hrun as (Hb & Hnd' & Hin & Htypes).
    repeat split; [exact Hb | exact Hnd' | | exact Htypes].
    intros v Hv. apply Hin in Hv.
    destruct shuffle_ids; [now rewrite <- Hperm | exact Hv].
  - destruct shuffle_ids; [now rewrite Hperm | exact Hnd].
Qed.

(** X20: without recorded vehicle types and with no empty identifier,
    [make_routes] binds the k-th (position, lane) pair to the k-th
    identifier of the (possibly shuffled) fleet when there are at least as
    many identifiers as pairs, and raises [IndexError] otherwise. *)
Theorem X20_untyped_binding (ids : list string)
    (positions : list (string * Q)) (lanes : list Z) (shuffle_ids : bool) :
  let vehicle_ids := if shuffle_ids then shuffled ids else ids in
  let pairs := zip positions lanes in
  Forall (fun v => v <> ""%string) vehicle_ids ->
  if decide (length pairs <= length vehicle_ids)%nat then
    exists elems,
      make_routes type_of initial_speed shuffled [] ids
                  positions lanes shuffle_ids = Ok elems /\
      Forall2 (bound_to type_of initial_speed) elems pairs /\
      map ve_id elems = take (length pairs) vehicle_ids
  else
    make_routes type_of initial_speed shuffled [] ids
                positions lanes shuffle_ids = Raise IndexError.
Proof.
  intros vehicle_ids pairs Hne. unfold make_routes.
  fold vehicle_ids. fold pairs.
  destruct (bind_vehicles_untyped pairs O vehicle_ids Hne) as [Hok Hraise].
  destruct (decide _) as [Hle | Hgt].
  - apply Hok. simpl. exact Hle.
  - apply Hraise; [| simpl; lia].
    intros E. rewrite E in Hgt. simpl in Hgt. lia.
Qed.

End RouteFacts.

Lemma X19_typed_binding_witness :
  exists elems,
    make_routes fleet_type (fun _ => 0%Q) (fun l => rev l)
      ["rl"%string; "human"%string]
      ["h0"%string; "h1"%string; "r0"%string]
      [("a"%string, 0%Q); ("b"%string, 5%Q)] [0%Z; 0%Z] true = Ok elems /\
    map ve_id elems = ["r0"%string; "h1"%string] /\
    NoDup (map ve_id elems).
Proof.
  destruct (make_routes fleet_type (fun _ => 0%Q) (fun l => rev l)
      ["rl"%string; "human"%string]
      ["h0"%string; "h1"%string; "r0"%string]
      [("a"%string, 0%Q); ("b"%string, 5%Q)] [0%Z; 0%Z] true)
    as [elems | |] eqn:Hrun; [| vm_compute in Hrun; discriminate Hrun ..].
  exists elems. split; [reflexivity |]. split.
  - vm_compute in Hrun. injection Hrun as <-. reflexivity.
  - refine (proj1 (proj2 (X19_typed_binding fleet_type (fun _ => 0%Q)
      (fun l => rev l) _ _ _ _ _ _ _ _ _ Hrun))).
    + discriminate.
    + apply (bool_decide_unpack _). vm_compute. reflexivity.
    + symmetry. apply Permutation_rev.
Defined.

Lemma X20_untyped_binding_witness :
  make_routes fleet_type (fun _ => 0%Q) (fun l => rev l) []
    ["h0"%string] [("a"%string, 0%Q); ("b"%string, 5%Q)] [0%Z; 0%Z] false
  = Raise IndexError.
Proof.
  apply (X20_untyped_binding fleet_type (fun _ => 0%Q) (fun l => rev l)
           ["h0"%string] [("a"%string, 0%Q); ("b"%string, 5%Q)] [0%Z; 0%Z]
           false).
  apply Forall_cons. split; [discriminate | constructor].
Defined.

(** ** The merge of the internal edge starts, once more *)

Lemma dedup_seen_id (l : list (string * Q)) :
  distinct_pos l ->
  forall seen,
    (forall item, item ∈ l -> seen_mem item.2 seen = false) ->
    dedup_seen seen l = l.
Proof.
  induction 1 as [| a l Ha Hd IH]; intros seen Hfresh; simpl;
    [reflexivity |].
  rewrite (Hfresh a) by now left. f_equal. apply IH.
  intros item Hin. apply seen_mem_false. intros q Hq.
  apply elem_of_cons in Hq as [-> | Hq].
  - now apply Ha.
  - assert (Hi : seen_mem item.2 seen = false) by (apply Hfresh; now right).
    rewrite seen_mem_false in Hi. now apply Hi.
Qed.

(** X21: when the start positions of the internal and intersection edge
    starts are pairwise different, the merge at construction drops nothing:
    the merged list is the concatenation.  Hence merging a merged list with
    nothing leaves it as it is. *)
Theorem X21_merge_keeps_distinct_positions
    (internal intersection : list (string * Q)) :
  (distinct_pos (internal ++ intersection) ->
   merge_internal_edgestarts internal intersection
   = internal ++ intersection) /\
  merge_internal_edgestarts
    (merge_internal_edgestarts internal intersection) []
  = merge_internal_edgestarts internal intersection.
Proof.
  assert (Hid : forall l, distinct_pos l -> dedup_seen [] l = l).
  { intros l Hl. apply (dedup_seen_id l Hl). intros item _.
    apply seen_mem_false. intros q Hq. inversion Hq. }
  split.
  - intros Hd. unfold merge_internal_edgestarts. now apply Hid.
  - unfold merge_internal_edgestarts at 1. rewrite app_nil_r.
    apply Hid. unfold merge_internal_edgestarts. apply dedup_seen_distinct.
Qed.

Lemma X21_merge_keeps_distinct_positions_witness :
  merge_internal_edgestarts [(":j"%string, 50%Q)] [(":k"%string, 70%Q)]
  = [(":j"%string, 50%Q); (":k"%string, 70%Q)].
Proof.
  apply (proj1 (X21_merge_keeps_distinct_positions
                  [(":j"%string, 50%Q)] [(":k"%string, 70%Q)])).
  simpl. apply distinct_cons.
  - intros b Hb. apply list_elem_of_In in Hb.
    destruct Hb as [<- | []]. simpl. intros E. vm_compute in E. discriminate E.
  - apply distinct_cons; [| apply distinct_nil].
    intros b Hb. apply list_elem_of_In in Hb. destruct Hb.
Defined.

(** ** The number of placements of the random strategy *)

Lemma gen_random_start_pos_count
    (sc : Scenario) (unif : nat -> Q) (kw : kwargs) (N : Z) (h : heap)
    (sp : list (string * Q)) (sl : list Z) (h' : heap) :
  counts_nonneg (edges_distribution (h_config h)) ->
  gen_random_start_pos sc unif kw N h = Ok ((sp, sl), h') ->
  List.length sp
  = Z.to_nat (random_total (edges_distribution (h_config h)) N).
Proof.
  intros Hnn Hrun. unfold gen_random_start_pos in Hrun.
  destruct (edges_distribution (h_config h)) as [| l | d]; cbn [random_total].
  - now apply gen_random_plain_spec in Hrun as (_ & Hrun & _).
  - now apply gen_random_plain_spec in Hrun as (_ & Hrun & _).
  - apply expand_keys_length in Hrun; [| | exact Hnn].
    + simpl in Hrun. lia.
    + intros N0 h0 sp0 sl0 h0' H1.
      now apply gen_random_plain_spec in H1 as (_ & H1 & _).
Qed.

Lemma gen_random_start_pos_lanes
    (sc : Scenario) (unif : nat -> Q) (kw : kwargs) (N : Z) (h : heap)
    (sp : list (string * Q)) (sl : list Z) (h' : heap) :
  gen_random_start_pos sc unif kw N h = Ok ((sp, sl), h') ->
  Forall2 (fun q lane => (lane < num_lanes sc q.1)%Z) sp sl.
Proof.
  assert (Hplain : forall N0 h0 sp0 sl0 h0',
             gen_random_plain sc unif kw N0 h0 = Ok ((sp0, sl0), h0') ->
             Forall2 (fun q lane => (lane < num_lanes sc q.1)%Z) sp0 sl0).
  { intros N0 h0 sp0 sl0 h0' H0.
    apply gen_random_plain_spec in H0 as (H0 & _).
    eapply Forall2_impl; [exact H0 |].
    intros q lane (_ & _ & _ & Hl). exact Hl. }
  intros Hrun. unfold gen_random_start_pos in Hrun.
  destruct (edges_distribution (h_config h)) as [| l | d].
  - exact (Hplain _ _ _ _ _ Hrun).
  - exact (Hplain _ _ _ _ _ Hrun).
  - apply (expand_keys_placements _
             (Forall2 (fun q lane => (lane < num_lanes sc q.1)%Z)))
      in Hrun; [exact Hrun | | exact Hplain | constructor].
    intros a b c d0. apply Forall2_app.
Qed.

(** X22: the random strategy returns as many placements as the mapping
    asks for when [edges_distribution] is a mapping (none of its counts
    being negative), whatever [num_vehicles] is, and [num_vehicles] of
    them otherwise. *)
Theorem X22_random_number_of_placements
    (sc : Scenario) (unif : nat -> Q) (kw : kwargs) (N : Z) (h : heap)
    (sp : list (string * Q)) (sl : list Z) (h' : heap) :
  counts_nonneg (edges_distribution (h_config h)) ->
  gen_random_start_pos sc unif kw N h = Ok ((sp, sl), h') ->
  List.length sp
  = Z.to_nat (random_total (edges_distribution (h_config h)) N) /\
  List.length sl = List.length sp.
Proof.
  intros Hnn Hrun. split.
  - exact (gen_random_start_pos_count _ _ _ _ _ _ _ _ Hnn Hrun).
  - symmetry.
    exact (Forall2_length _ _ _
             (gen_random_start_pos_lanes _ _ _ _ _ _ _ _ Hrun)).
Qed.

Lemma X22_random_number_of_placements_witness :
  exists sp sl h',
    gen_random_start_pos ring half_draws ∅ 4
      (fresh_heap (random_config three_and_two)) = Ok ((sp, sl), h') /\
    List.length sp = 5%nat.
Proof.
  destruct (gen_random_start_pos ring half_draws ∅ 4
              (fresh_heap (random_config three_and_two)))
    as [[[sp sl] h'] | e |] eqn:Hrun;
    [| vm_compute in Hrun; discriminate Hrun ..].
  exists sp, sl, h'. split; [reflexivity |].
  refine (proj1 (X22_random_number_of_placements _ _ _ _
                   (fresh_heap (random_config three_and_two)) _ _ _ _ Hrun)).
  simpl. repeat (constructor; [simpl; lia |]). constructor.
Defined.

(** ** The dispatch on the spacing *)

Section DispatchFacts.

Variable sc : Scenario.
Variable gauss : nat -> Q.
Variable unif : nat -> Q.
Variable kw : kwargs.

(** X23: [generate_starting_positions] returns only under the uniform and
    the random spacing.  What it returns pairs every position with a lane
    index below the lane count of its edge, and under the uniform spacing
    (no count of a mapping being negative) there are as many placements as
    vehicles requested, the fleet size standing in for a request of [None]
    or of 0. *)
Theorem X23_generate_starting_positions
    (fuel : nat) (fleet : Z) (num_vehicles : option Z) (h : heap)
    (sp : list (string * Q)) (sl : list Z) (h' : heap) :
  generate_starting_positions sc gauss unif kw fuel fleet num_vehicles h
    = Ok ((sp, sl), h') ->
  (spacing (h_config h) = "uniform"%string \/
   spacing (h_config h) = "random"%string) /\
  Forall2 (fun q lane => (lane < num_lanes sc q.1)%Z) sp sl /\
  (spacing (h_config h) = "uniform"%string ->
   counts_nonneg (edges_distribution (h_config h)) ->
   List.length sp = Z.to_nat (requested fleet num_vehicles)).
Proof.
  unfold generate_starting_positions. fold (requested fleet num_vehicles).
  cbv zeta.
  destruct (String.eqb (spacing (h_config h)) "uniform") eqn:Hu.
  - apply String.eqb_eq in Hu. intros Hrun. split; [now left |]. split.
    + eapply Forall2_impl;
        [exact (gen_even_start_pos_lanes _ _ _ _ _ _ _ _ _ Hrun) |].
      intros q lane [_ Hl]. exact Hl.
    + intros _ Hnn.
      exact (proj1 (gen_even_start_pos_count _ _ _ _ _ _ _ _ _ Hnn Hrun)).
  - destruct (String.eqb (spacing (h_config h)) "random") eqn:Hr.
    + apply String.eqb_eq in Hr. intros Hrun. split; [now right |]. split.
      * exact (gen_random_start_pos_lanes _ _ _ _ _ _ _ _ Hrun).
      * intros E. rewrite E in Hu. discriminate Hu.
    + destruct (String.eqb (spacing (h_config h)) "custom");
        unfold gen_custom_start_pos; discriminate.
Qed.

End DispatchFacts.

Lemma X23_generate_starting_positions_witness :
  exists sp sl h',
    generate_starting_positions ring (fun _ => 0%Q) half_draws ∅ 10 5
      (Some 0%Z) (fresh_heap (plain_config three_and_two))
    = Ok ((sp, sl), h') /\
    List.length sp = 5%nat.
Proof.
  destruct (generate_starting_positions ring (fun _ => 0%Q) half_draws ∅ 10 5
              (Some 0%Z) (fresh_heap (plain_config three_and_two)))
    as [[[sp sl] h'] | e |] eqn:Hrun;
    [| vm_compute in Hrun; discriminate Hrun ..].
  exists sp, sl, h'. split; [reflexivity |].
  refine (proj2 (proj2 (X23_generate_starting_positions _ _ _ _ _ _ _
                   (fresh_heap (plain_config three_and_two)) _ _ _ Hrun))
            eq_refl _).
  simpl. repeat (constructor; [simpl; lia |]). constructor.
Defined.
